(** * Remote interview platform: directory sync, role gating, call-client
      lifecycle, meeting actions and call lookup.

    A shallow embedding of the TypeScript sources.  React state and closure
    variables are explicit state, effects (toasts, console output,
    navigation, SDK requests) are recorded in traces, and every value that
    the environment supplies (the clock, random ids, the outcome of a
    promise, [document.hidden]) is a parameter of the transition that
    consumes it. *)

From Stdlib Require Import String Ascii List Bool Arith ZArith Lia Sorted.
From stdpp Require Import base tactics option list.

Import ListNotations.
Local Open Scope string_scope.
Local Open Scope list_scope.

(* ===================================================================== *)
(** ** JavaScript values and string primitives *)
(* ===================================================================== *)

(** A [string] holds the UTF-8 encoding of the JavaScript string it
    stands for, one byte per character. *)

Module JS.

(** The outcome of evaluating an expression: a value, or a thrown
    exception. *)
Inductive result (A : Type) : Type :=
| Ok (a : A)
| Throw (msg : string).
Arguments Ok {A} a.
Arguments Throw {A} msg.

(** What a [catch] clause receives: an [Error] instance with its message,
    or any other thrown value. *)
Inductive Thrown : Type :=
| ErrorObj (message : string)
| NonError (shown : string).

(** The outcome of an awaited promise. *)
Inductive Settled (A : Type) : Type :=
| Resolved (a : A)
| Rejected (err : Thrown).
Arguments Resolved {A} a.
Arguments Rejected {A} err.

(** A string is truthy exactly when it is not empty. *)
Definition truthy (s : string) : bool := negb (String.eqb s "").

(** [x || d] on a possibly-null string. *)
Definition or_else (x : option string) (d : string) : string :=
  match x with
  | Some s => if truthy s then s else d
  | None => d
  end.

(** A possibly-null value interpolated in a template literal. *)
Definition interpolate (x : option string) : string :=
  match x with
  | Some s => s
  | None => "null"
  end.

(** [s.includes(sub)]. *)
Fixpoint includes (s sub : string) : bool :=
  if String.prefix sub s then true
  else match s with
       | EmptyString => false
       | String _ s' => includes s' sub
       end.

(** What [includes] decides: [sub] occurs somewhere in [s]. *)
Definition contains (s sub : string) : Prop :=
  exists pre post, s = (pre ++ sub ++ post)%string.

(** [error instanceof Error && error.message.includes(sub)]. *)
Definition error_mentions (err : Thrown) (sub : string) : bool :=
  match err with
  | ErrorObj m => includes m sub
  | NonError _ => false
  end.

(** [s.split(sep)] for a one-character separator. *)
Fixpoint split (sep : ascii) (s : string) : list string :=
  match s with
  | EmptyString => [EmptyString]
  | String c s' =>
      if Ascii.eqb c sep then EmptyString :: split sep s'
      else match split sep s' with
           | [] => [String c EmptyString]
           | seg :: rest => String c seg :: rest
           end
  end.

(** [a.join(sep)] for a one-character separator. *)
Fixpoint join (sep : ascii) (a : list string) : string :=
  match a with
  | [] => EmptyString
  | [x] => x
  | x :: rest => x ++ String sep (join sep rest)
  end.

(** [a.pop()]: the last element, [undefined] on an empty array. *)
Fixpoint pop {A : Type} (a : list A) : option A :=
  match a with
  | [] => None
  | [x] => Some x
  | _ :: rest => pop rest
  end.

(** The code points [trim] removes, the WhiteSpace and LineTerminator of
    ECMAScript, each in UTF-8. *)
Definition white_space : list (list ascii) :=
  List.map (List.map Ascii.ascii_of_nat)
    [[9]; [10]; [11]; [12]; [13]; [32];
     [194; 160];
     [225; 154; 128];
     [226; 128; 128]; [226; 128; 129]; [226; 128; 130]; [226; 128; 131];
     [226; 128; 132]; [226; 128; 133]; [226; 128; 134]; [226; 128; 135];
     [226; 128; 136]; [226; 128; 137]; [226; 128; 138];
     [226; 128; 168]; [226; 128; 169]; [226; 128; 175];
     [226; 129; 159];
     [227; 128; 128];
     [239; 187; 191]].

(** [s] without its prefix [w], when it starts with [w]. *)
Fixpoint strip_prefix (w s : list ascii) : option (list ascii) :=
  match w, s with
  | [], _ => Some s
  | a :: w', b :: s' => if Ascii.eqb a b then strip_prefix w' s' else None
  | _ :: _, [] => None
  end.

(** [s] without the first of the sequences [ws] it starts with. *)
Fixpoint drop_first (ws : list (list ascii)) (s : list ascii)
    : option (list ascii) :=
  match ws with
  | [] => None
  | w :: ws' =>
      match strip_prefix w s with
      | Some r => Some r
      | None => drop_first ws' s
      end
  end.

(** The leading sequences of [ws] removed, one per unit of fuel. *)
Fixpoint strip_leading (ws : list (list ascii)) (fuel : nat) (s : list ascii)
    : list ascii :=
  match fuel with
  | 0 => s
  | S n =>
      match drop_first ws s with
      | Some r => strip_leading ws n r
      | None => s
      end
  end.

(** [s] without every leading sequence of [ws]: no sequence is empty, so
    the length of [s] is fuel enough. *)
Definition lstrip (ws : list (list ascii)) (s : list ascii) : list ascii :=
  strip_leading ws (length s) s.

(** [s] without every trailing sequence of [ws]. *)
Definition rstrip (ws : list (list ascii)) (s : list ascii) : list ascii :=
  rev (lstrip (List.map (@rev ascii) ws) (rev s)).

(** The white space at the start is removed, then the white space at
    the end. *)
Definition trim_bytes (s : list ascii) : list ascii :=
  rstrip white_space (lstrip white_space s).

(** [s.trim()] *)
Definition trim (s : string) : string :=
  string_of_list_ascii (trim_bytes (list_ascii_of_string s)).

(** No sequence is empty, and none is the start of another. *)
Definition prefix_code (ws : list (list ascii)) : bool :=
  forallb (fun w =>
             negb (Nat.eqb (length w) 0) &&
             forallb (fun w' => match strip_prefix w w' with
                                | Some r => Nat.eqb (length r) 0
                                | None => true
                                end) ws) ws.

(** The character [c] occurs in the sequences of [ws] only as the
    sequence [[c]]. *)
Definition stands_alone (c : ascii) (ws : list (list ascii)) : bool :=
  forallb (fun w => match w with
                    | [] => true
                    | a :: t => negb (existsb (Ascii.eqb c) t) &&
                                (negb (Ascii.eqb c a) || Nat.eqb (length t) 0)
                    end) ws.

(** A concatenation of sequences of [ws]. *)
Inductive Blank (ws : list (list ascii)) : list ascii -> Prop :=
| Blank_nil : Blank ws []
| Blank_cons w r : In w ws -> Blank ws r -> Blank ws (w ++ r).

End JS.

(* ===================================================================== *)
(** ** The identity session (Clerk) *)
(* ===================================================================== *)

Module Clerk.

(** The fields of the signed-in user that the application reads. *)
Record User : Type := {
  id : string;
  firstName : option string;
  lastName : option string;
  imageUrl : string;
  emailAddresses : list string
}.

End Clerk.

(* ===================================================================== *)
(** ** Directory sync: [syncUser] and the NavBar effect *)
(* ===================================================================== *)

Module Directory.

(** A document of the [users] table. *)
Record UserDoc : Type := {
  _id : nat;
  name : string;
  email : string;
  clerkId : string;
  role : string;
  image : option string;
  createdAt : Z
}.

(** The arguments of the mutation. *)
Record Args : Type := {
  a_name : string;
  a_email : string;
  a_clerkId : string;
  a_image : option string
}.

(** The table in creation order, and the next document id. *)
Record Db : Type := {
  users : list UserDoc;
  next_id : nat
}.

Definition empty : Db := {| users := []; next_id := 0 |}.

(** [query("users").withIndex("by_clerk_id", q => q.eq("clerkId", c)).first()] *)
Definition first_by_clerk_id (c : string) (db : Db) : option UserDoc :=
  List.find (fun d => String.eqb (clerkId d) c) (users db).

(** The fields [patch] overwrites in [syncUser]. *)
Definition refresh (args : Args) (d : UserDoc) : UserDoc :=
  {| _id := _id d;
     name := a_name args;
     email := a_email args;
     clerkId := clerkId d;
     role := role d;
     image := a_image args;
     createdAt := createdAt d |}.

(** [ctx.db.patch(id, fields)] *)
Definition patch (i : nat) (f : UserDoc -> UserDoc) (db : Db) : Db :=
  {| users := List.map (fun d => if Nat.eqb (_id d) i then f d else d) (users db);
     next_id := next_id db |}.

(** Modelled from the spec: the [syncUser] mutation NavBar calls,
    [api.users.syncUser] of convex/users.ts, is not among the sources.
    The document a first sync inserts carries the arguments, the role
    "candidate" and the creation timestamp. *)
Definition fresh (now : Z) (args : Args) (i : nat) : UserDoc :=
  {| _id := i;
     name := a_name args;
     email := a_email args;
     clerkId := a_clerkId args;
     role := "candidate";
     image := a_image args;
     createdAt := now |}.

(** [ctx.db.insert("users", doc)], which returns the new id. *)
Definition insert (mk : nat -> UserDoc) (db : Db) : Db * nat :=
  ({| users := users db ++ [mk (next_id db)]; next_id := S (next_id db) |},
   next_id db).

(** Modelled from the spec: the [syncUser] mutation NavBar calls,
    [api.users.syncUser] of convex/users.ts, is not among the sources.
    The handler is the upsert keyed by external id of the spec's
    Directory Sync contract, in the shape the setup guide gives its
    [syncUser]: a document found through the [by_clerk_id] index is
    patched with the latest name, email and avatar, otherwise a new one
    is inserted.  [now] is [Date.now()]; the returned value is the new id
    after an insert and nothing after a patch. *)
Definition syncUser (now : Z) (args : Args) (db : Db) : Db * option nat :=
  match first_by_clerk_id (a_clerkId args) db with
  | Some existingUser => (patch (_id existingUser) (refresh args) db, None)
  | None => let '(db', i) := insert (fresh now args) db in (db', Some i)
  end.

(** The arguments NavBar builds from the signed-in user; reading
    [emailAddresses[0].emailAddress] throws a [TypeError] on an empty
    array, with the message [type_error] the engine gives it. *)
Definition navbar_args (type_error : string) (u : Clerk.User) : JS.result Args :=
  match Clerk.emailAddresses u with
  | [] => JS.Throw type_error
  | e :: _ =>
      JS.Ok {| a_name := JS.interpolate (Clerk.firstName u) ++ " "
                         ++ JS.interpolate (Clerk.lastName u);
               a_email := e;
               a_clerkId := Clerk.id u;
               a_image := Some (Clerk.imageUrl u) |}
  end.

(** The NavBar effect: nothing until the identity is loaded and present. *)
Definition navbar_effect (type_error : string) (isLoaded : bool)
    (user : option Clerk.User) (now : Z) (db : Db) : JS.result Db :=
  if negb isLoaded then JS.Ok db
  else match user with
       | None => JS.Ok db
       | Some u =>
           match navbar_args type_error u with
           | JS.Ok args => JS.Ok (fst (syncUser now args db))
           | JS.Throw m => JS.Throw m
           end
       end.

(** Invariants of the table: ids are below [next_id] and pairwise
    distinct; at most one document per external id. *)
Definition ids_ok (db : Db) : Prop :=
  Forall (fun d => _id d < next_id db) (users db) /\
  NoDup (List.map _id (users db)).

Definition keyed (db : Db) : Prop :=
  NoDup (List.map clerkId (users db)).

(** A history of calls, each with its clock reading and its arguments. *)
Definition sync_all (calls : list (Z * Args)) (db : Db) : Db :=
  fold_left (fun db call => fst (syncUser (fst call) (snd call) db)) calls db.

(** The number of documents with a given external id. *)
Definition count_clerk_id (c : string) (db : Db) : nat :=
  length (List.filter (fun d => String.eqb (clerkId d) c) (users db)).

(** The [getUser] query: the first document with the external id, or
    [null]. *)
Definition getUser (c : string) (db : Db) : option UserDoc :=
  first_by_clerk_id c db.

End Directory.

(* ===================================================================== *)
(** ** Role resolver: [useUSerRole] *)
(* ===================================================================== *)

Module Roles.

(** What [useQuery] hands back: [undefined] while the query is pending,
    [null] when no document matches, the document otherwise. *)
Inductive QueryResult : Type :=
| Pending
| Null
| Found (d : Directory.UserDoc).

Record RoleInfo : Type := {
  isLoading : bool;
  isInterviewer : bool;
  isCandidate : bool
}.

(** [user?.id || ""]: the external id, or the empty sentinel. *)
Definition lookup_key (user : option Clerk.User) : string :=
  JS.or_else (option_map Clerk.id user) "".

(** [userData === undefined] *)
Definition is_undefined (q : QueryResult) : bool :=
  match q with
  | Pending => true
  | _ => false
  end.

(** [userData?.role === r] *)
Definition role_is (q : QueryResult) (r : string) : bool :=
  match q with
  | Found d => String.eqb (Directory.role d) r
  | _ => false
  end.

(** The hook; [useQuery] stands for
    [useQuery(api.users.getUserByClerkId, {clerkId})]. *)
Definition useUSerRole (user : option Clerk.User)
    (useQuery : string -> QueryResult) : JS.result RoleInfo :=
  let userData := useQuery (lookup_key user) in
  let isLoading := is_undefined userData in
  JS.Ok {| isLoading := isLoading;
           isInterviewer := role_is userData "interviewer";
           isCandidate := role_is userData "candidate" |}.

(** Modelled from the spec: the [getUserByClerkId] query of
    convex/users.ts is not among the sources.  Once loaded it answers
    with the directory record kept for the external id, or [null]. *)
Definition query_of (db : Directory.Db) (c : string) : QueryResult :=
  match Directory.first_by_clerk_id c db with
  | Some d => Found d
  | None => Null
  end.

End Roles.

(* ===================================================================== *)
(** ** Call client lifecycle: [StreamVideoProvider] *)
(* ===================================================================== *)

Module Provider.

(** A constructed [StreamVideoClient]; [connected] is cleared by
    [disconnectUser], and [disconnecting] holds while the promise that
    [disconnectUser] returned has not settled. *)
Record StreamVideoClient : Type := {
  apiKey : string;
  user_id : string;
  user_name : string;
  user_image : string;
  token : string;
  connected : bool;
  disconnecting : bool
}.

(** The closure of one run of the effect: its [mounted] flag, its
    [client] variable, and the user captured by [initClient] while it is
    suspended at [await streamTokenProvider()]. *)
Record Epoch : Type := {
  mounted : bool;
  client : option nat;
  awaiting : option Clerk.User
}.

Inductive Effect : Type :=
| ConsoleLog (msg : string)
| ConsoleError (msg : string)
| ToastError (msg : string)
| TokenRequest (user : string)
| Construct (h : nat)
| SetStreamVideoClient (h : nat)
| DisconnectUser (h : nat).

Record State : Type := {
  epochs : list Epoch;
  active : option nat;
  clients : list StreamVideoClient;
  streamVideoClient : option nat;
  trace : list Effect
}.

Definition init : State :=
  {| epochs := []; active := None; clients := [];
     streamVideoClient := None; trace := [] |}.

Definition emit (es : list Effect) (s : State) : State :=
  {| epochs := epochs s; active := active s; clients := clients s;
     streamVideoClient := streamVideoClient s; trace := trace s ++ es |}.

Definition set_epoch (e : nat) (ep : Epoch) (s : State) : State :=
  {| epochs := <[e := ep]> (epochs s); active := active s;
     clients := clients s; streamVideoClient := streamVideoClient s;
     trace := trace s |}.

(** The display name: the name fields joined and trimmed, else the id. *)
Definition display_name (u : Clerk.User) : string :=
  let joined := JS.trim (JS.or_else (Clerk.firstName u) "" ++ " "
                         ++ JS.or_else (Clerk.lastName u) "") in
  if JS.truthy joined then joined else Clerk.id u.

Definition new_client (key : string) (u : Clerk.User) (tok : string)
    : StreamVideoClient :=
  {| apiKey := key;
     user_id := Clerk.id u;
     user_name := display_name u;
     user_image := Clerk.imageUrl u;
     token := tok;
     connected := true;
     disconnecting := false |}.

(** What the environment answers to the token request, and whether the
    constructor then throws. *)
Inductive TokenOutcome : Type :=
| TokenResolved (tok : string) (ctor_throws : option string)
| TokenRejected (err : string).

(** What the environment supplies when a cleanup runs:
    [document.hidden]. *)
Record CleanupEnv : Type := {
  hidden : bool
}.

Section WithKey.

(** [process.env.NEXT_PUBLIC_STREAM_API_KEY] *)
Variable api_key : string.

(** The effect body up to the first suspension: the closure is
    created with [mounted = true] and no client, and [initClient]
    either returns at once or requests a token. *)
Definition run_effect (isLoaded : bool) (user : option Clerk.User)
    (s : State) : State :=
  let e := length (epochs s) in
  let start (w : option Clerk.User) (es : list Effect) :=
    {| epochs := epochs s ++ [{| mounted := true; client := None;
                                 awaiting := w |}];
       active := Some e;
       clients := clients s;
       streamVideoClient := streamVideoClient s;
       trace := trace s ++ es |} in
  match isLoaded, user with
  | true, Some u =>
      start (Some u)
            [ConsoleLog "StreamProvider: Getting token for user:";
             TokenRequest (Clerk.id u)]
  | _, _ => start None [ConsoleLog "StreamProvider: Waiting for user to load..."]
  end.

(** The [catch] clause of [initClient]. *)
Definition on_error (ep : Epoch) (err : string) (s : State) : State :=
  emit (ConsoleError err ::
        if mounted ep then [ToastError "Failed to connect to video service"]
        else [])
       s.

(** [initClient] of epoch [e] resumes after the [await]. *)
Definition resume (e : nat) (o : TokenOutcome) (s : State) : State :=
  match epochs s !! e with
  | None => s
  | Some ep =>
      match awaiting ep with
      | None => s
      | Some u =>
          let ep0 := {| mounted := mounted ep; client := client ep;
                        awaiting := None |} in
          let s0 := set_epoch e ep0 s in
          match o with
          | TokenRejected err => on_error ep0 err s0
          | TokenResolved tok ctor =>
              let s1 := emit [ConsoleLog "StreamProvider: Token received successfully"] s0 in
              if negb (mounted ep0) then
                emit [ConsoleLog "StreamProvider: Component unmounted, aborting initialization"] s1
              else
                let s2 := emit [ConsoleLog "StreamProvider: Initializing client with token"] s1 in
                match ctor with
                | Some err => on_error ep0 err s2
                | None =>
                    let h := length (clients s2) in
                    let ep1 := {| mounted := mounted ep0; client := Some h;
                                  awaiting := None |} in
                    let s3 :=
                      {| epochs := <[e := ep1]> (epochs s2);
                         active := active s2;
                         clients := clients s2 ++ [new_client api_key u tok];
                         streamVideoClient := streamVideoClient s2;
                         trace := trace s2 ++ [Construct h] |} in
                    if mounted ep1 then
                      {| epochs := epochs s3;
                         active := active s3;
                         clients := clients s3;
                         streamVideoClient := Some h;
                         trace := trace s3 ++
                           [ConsoleLog "StreamProvider: Client initialized successfully";
                            SetStreamVideoClient h] |}
                    else s3
                end
          end
      end
  end.

(** [client.disconnectUser()]: the call returns a promise that settles
    later. *)
Definition disconnect (h : nat) (s : State) : State :=
  {| epochs := epochs s;
     active := active s;
     clients := match clients s !! h with
                | Some c =>
                    <[h := {| apiKey := apiKey c; user_id := user_id c;
                              user_name := user_name c;
                              user_image := user_image c;
                              token := token c; connected := false;
                              disconnecting := true |}]>
                      (clients s)
                | None => clients s
                end;
     streamVideoClient := streamVideoClient s;
     trace := trace s ++ [DisconnectUser h] |}.

(** The promise of [disconnectUser()] on handle [h] settles; a rejection
    reaches [.catch(console.error)]. *)
Definition disconnect_settled (h : nat) (rejects : option string) (s : State)
    : State :=
  match clients s !! h with
  | Some c =>
      if disconnecting c then
        {| epochs := epochs s;
           active := active s;
           clients := <[h := {| apiKey := apiKey c; user_id := user_id c;
                                user_name := user_name c;
                                user_image := user_image c;
                                token := token c; connected := connected c;
                                disconnecting := false |}]>
                        (clients s);
           streamVideoClient := streamVideoClient s;
           trace := trace s ++ match rejects with
                               | Some err => [ConsoleError err]
                               | None => []
                               end |}
      else s
  | None => s
  end.

(** The cleanup returned by the effect of epoch [e]. *)
Definition cleanup (e : nat) (env : CleanupEnv) (s : State) : State :=
  match epochs s !! e with
  | None => s
  | Some ep =>
      let s1 := set_epoch e {| mounted := false; client := client ep;
                               awaiting := awaiting ep |} s in
      match client ep with
      | Some h =>
          if negb (hidden env) then
            disconnect h
                       (emit [ConsoleLog "StreamProvider: Cleaning up client"] s1)
          else s1
      | None => s1
      end
  end.

(** What React and the environment can do to a provider instance. *)
Inductive Event : Type :=
| Render (isLoaded : bool) (user : option Clerk.User) (env : CleanupEnv)
| Unmount (env : CleanupEnv)
| Settle (e : nat) (o : TokenOutcome)
| DisconnectSettle (h : nat) (rejects : option string).

Definition deactivate (s : State) : State :=
  {| epochs := epochs s; active := None; clients := clients s;
     streamVideoClient := streamVideoClient s; trace := trace s |}.

(** [Render] is the first mount or a change of [[user, isLoaded]]: the
    cleanup of the previous run precedes the new run. *)
Definition step (ev : Event) (s : State) : State :=
  match ev with
  | Render l u env =>
      run_effect l u
        (match active s with
         | Some e => cleanup e env s
         | None => s
         end)
  | Unmount env =>
      match active s with
      | Some e => deactivate (cleanup e env s)
      | None => s
      end
  | Settle e o => resume e o s
  | DisconnectSettle h rejects => disconnect_settled h rejects s
  end.

Definition run (evs : list Event) (s : State) : State :=
  fold_left (fun s ev => step ev s) evs s.

End WithKey.

(** What the component returns. *)
Inductive View : Type :=
| Children
| LoaderUI
| StreamVideo (h : nat).

Definition render (isLoaded : bool) (user : option Clerk.User)
    (s : State) : View :=
  if negb isLoaded then Children
  else match user with
       | None => Children
       | Some _ =>
           match streamVideoClient s with
           | None => LoaderUI
           | Some h => StreamVideo h
           end
       end.

(** The error [initClient] catches, when the outcome is a failure of the
    token request or of the constructor. *)
Definition failure (o : TokenOutcome) : option string :=
  match o with
  | TokenRejected err => Some err
  | TokenResolved _ (Some err) => Some err
  | TokenResolved _ None => None
  end.

(** Handles on which [disconnectUser] has not been called. *)
Definition live (s : State) (h : nat) : Prop :=
  exists c, clients s !! h = Some c /\ connected c = true.

Definition live_handles (s : State) : list nat :=
  List.filter (fun h => match clients s !! h with
                        | Some c => connected c
                        | None => false
                        end)
              (seq 0 (length (clients s))).

Definition visible (ev : Event) : Prop :=
  match ev with
  | Render _ _ env | Unmount env => hidden env = false
  | Settle _ _ | DisconnectSettle _ _ => True
  end.

(** The calls of [setStreamVideoClient] and the toasts in a trace. *)
Definition is_publish (x : Effect) : bool :=
  match x with
  | SetStreamVideoClient _ => true
  | _ => false
  end.

Definition is_toast (x : Effect) : bool :=
  match x with
  | ToastError _ => true
  | _ => false
  end.

Definition publishes (s : State) : list Effect := List.filter is_publish (trace s).
Definition toasts (s : State) : list Effect := List.filter is_toast (trace s).

(** The invariant of the reachable states when every cleanup runs with
    the document visible. *)
Record Inv (s : State) : Prop := {
  inv_stale : forall e ep, epochs s !! e = Some ep -> active s <> Some e ->
                           mounted ep = false;
  inv_await : forall e ep u, epochs s !! e = Some ep -> awaiting ep = Some u ->
                             client ep = None;
  inv_live : forall h, live s h ->
                       exists e ep, active s = Some e /\ epochs s !! e = Some ep /\
                                    client ep = Some h
}.

(** The part of the invariant that holds whatever the document's
    visibility: only the active effect can still be mounted. *)
Definition stale_unmounted (s : State) : Prop :=
  forall e ep, epochs s !! e = Some ep -> active s <> Some e -> mounted ep = false.

(** No closure is mounted any more. *)
Definition all_unmounted (s : State) : Prop :=
  forall e ep, epochs s !! e = Some ep -> mounted ep = false.

(** Between the cleanup of one effect and the next run: nothing is
    mounted and nothing is live. *)
Definition quiet (s : State) : Prop :=
  all_unmounted s /\
  (forall e ep u, epochs s !! e = Some ep -> awaiting ep = Some u ->
                  client ep = None) /\
  (forall h, ~ live s h).

(** A token request of epoch [fst x] settling with outcome [snd x]. *)
Definition settle (x : nat * TokenOutcome) : Event := Settle (fst x) (snd x).

Definition is_token_request (x : Effect) : bool :=
  match x with
  | TokenRequest _ => true
  | _ => false
  end.

Definition is_construct (x : Effect) : bool :=
  match x with
  | Construct _ => true
  | _ => false
  end.

(** Token requests and constructions recorded so far. *)
Definition token_requests (s : State) : nat :=
  length (List.filter is_token_request (trace s)).

Definition constructions (s : State) : nat :=
  length (List.filter is_construct (trace s)).

(** Effects still suspended at their token request. *)
Definition is_awaiting (ep : Epoch) : bool :=
  match awaiting ep with
  | Some _ => true
  | None => false
  end.

Definition suspended (s : State) : nat :=
  length (List.filter is_awaiting (epochs s)).

(** A render that makes [initClient] request a token. *)
Definition requests_token (ev : Event) : bool :=
  match ev with
  | Render true (Some _) _ => true
  | _ => false
  end.

(** A string with no white space at either end. *)
Definition trimmed (s : string) : Prop := JS.trim s = s.

(** A name field that contributes nothing to the display name. *)
Definition blank (x : option string) : Prop :=
  JS.trim (JS.or_else x "") = "".

(** Every handle and every publication is backed by the trace: a token was
    requested for the handle's identity, and the handle was constructed
    before it was published. *)
Record Bound (api_key : string) (s : State) : Prop := {
  bound_awaiting : forall e ep u, epochs s !! e = Some ep -> awaiting ep = Some u ->
                                  In (TokenRequest (Clerk.id u)) (trace s);
  bound_clients : forall h c, clients s !! h = Some c ->
                              In (TokenRequest (user_id c)) (trace s) /\
                              In (Construct h) (trace s) /\ apiKey c = api_key;
  bound_published : forall h, streamVideoClient s = Some h ->
                              is_Some (clients s !! h) /\
                              In (SetStreamVideoClient h) (trace s)
}.

End Provider.

(* ===================================================================== *)
(** ** The video SDK surface the hooks use *)
(* ===================================================================== *)

Module Stream.

(** [client.call(type, id)] *)
Record Call : Type := {
  call_type : string;
  call_id : string
}.

Definition call (type id : string) : Call :=
  {| call_type := type; call_id := id |}.

End Stream.

(* ===================================================================== *)
(** ** Meeting actions: [useMeetingActions] *)
(* ===================================================================== *)

Module Actions.

Inductive Effect : Type :=
| ToastError (msg : string)
| ToastSuccess (msg : string)
| ConsoleError (msg : string)
| GetOrCreate (c : Stream.Call) (starts_at description : string)
| RouterPush (path : string).

Definition not_initialized : list Effect :=
  [ToastError "Video service not initialized. Please try again in a moment."].

(** [createInstantMeeting] up to [await call.getOrCreate(...)]; [uuid] is
    [crypto.randomUUID()] and [now] is [new Date().toISOString()].  The
    second component is the call the continuation waits on. *)
Definition create_begin (client : option nat) (uuid now : string)
    : list Effect * option Stream.Call :=
  match client with
  | None => (not_initialized, None)
  | Some _ =>
      let call := Stream.call "default" uuid in
      ([GetOrCreate call now "Instant Meeting"], Some call)
  end.

(** [createInstantMeeting] after the [await]. *)
Definition create_resume (call : Stream.Call) (o : JS.Settled unit)
    : list Effect :=
  match o with
  | JS.Resolved _ =>
      [RouterPush ("/meetings/" ++ Stream.call_id call);
       ToastSuccess "Meeting Created"]
  | JS.Rejected error =>
      [ConsoleError "Failed to create meeting:";
       if JS.error_mentions error "token"
       then ToastError "Connection not ready. Please try again in a moment."
       else ToastError "Failed to create meeting. Please try again."]
  end.

Definition createInstantMeeting (client : option nat) (uuid now : string)
    (o : JS.Settled unit) : list Effect :=
  let '(es, waiting) := create_begin client uuid now in
  es ++ match waiting with
        | Some call => create_resume call o
        | None => []
        end.

Definition joinMeeting (client : option nat) (callId : string) : list Effect :=
  match client with
  | None => not_initialized
  | Some _ => [RouterPush ("/meetings/" ++ callId)]
  end.

Definition is_push (x : Effect) : bool :=
  match x with
  | RouterPush _ => true
  | _ => false
  end.

Definition is_request (x : Effect) : bool :=
  match x with
  | GetOrCreate _ _ _ => true
  | _ => false
  end.

Definition is_toast_error (x : Effect) : bool :=
  match x with
  | ToastError _ => true
  | _ => false
  end.

End Actions.

(* ===================================================================== *)
(** ** Call lookup: [useGetcallById], and the meeting page *)
(* ===================================================================== *)

Module Lookup.

(** The closure of one run of the effect: its [mounted] flag, the
    [client] and [id] it captured, the time at which its interval was
    set (until it is cleared), and whether its [call.get()] is still in
    flight. *)
Record Epoch : Type := {
  mounted : bool;
  client : option nat;
  id : string;
  interval : option nat;
  fetching : bool
}.

Inductive Effect : Type :=
| ConsoleLog (msg : string)
| ConsoleError (msg : string)
| ToastError (msg : string)
| CallGet (c : Stream.Call).

Record State : Type := {
  epochs : list Epoch;
  active : option nat;
  call : option Stream.Call;
  isCallLoading : bool;
  clock : nat;
  trace : list Effect
}.

Definition init : State :=
  {| epochs := []; active := None; call := None; isCallLoading := true;
     clock := 0; trace := [] |}.

(** The period passed to [setInterval], in milliseconds. *)
Definition period : nat := 1000.

Definition retry_msg : string := "useGetcallById: Retrying to get client...".

Definition emit (es : list Effect) (s : State) : State :=
  {| epochs := epochs s; active := active s; call := call s;
     isCallLoading := isCallLoading s; clock := clock s;
     trace := trace s ++ es |}.

Definition set_epoch (e : nat) (ep : Epoch) (s : State) : State :=
  {| epochs := <[e := ep]> (epochs s); active := active s; call := call s;
     isCallLoading := isCallLoading s; clock := clock s; trace := trace s |}.

(** [getCall] of epoch [e], up to [await call.get()]. *)
Definition getCall (e : nat) (s : State) : State :=
  match epochs s !! e with
  | None => s
  | Some ep =>
      match client ep with
      | None => emit [ConsoleLog "useGetcallById: No client available, waiting..."] s
      | Some _ =>
          emit [ConsoleLog "useGetcallById: Fetching call with id:";
                CallGet (Stream.call "default" (id ep))]
               (set_epoch e {| mounted := mounted ep; client := client ep;
                               id := id ep; interval := interval ep;
                               fetching := true |} s)
      end
  end.

(** The interval callback of epoch [e]. *)
Definition tick (e : nat) (s : State) : State :=
  match epochs s !! e with
  | None => s
  | Some ep =>
      match client ep with
      | None => getCall e (emit [ConsoleLog retry_msg] s)
      | Some _ => s
      end
  end.

(** The effect body: a new closure, [getCall()], then [setInterval]. *)
Definition run_effect (c : option nat) (i : string) (s : State) : State :=
  let e := length (epochs s) in
  getCall e
    {| epochs := epochs s ++ [{| mounted := true; client := c; id := i;
                                 interval := Some (clock s);
                                 fetching := false |}];
       active := Some e; call := call s; isCallLoading := isCallLoading s;
       clock := clock s; trace := trace s |}.

(** [getCall] of epoch [e] resumes after [await call.get()]. *)
Definition resume (e : nat) (o : JS.Settled unit) (s : State) : State :=
  match epochs s !! e with
  | None => s
  | Some ep =>
      if negb (fetching ep) then s
      else
        let s0 := set_epoch e {| mounted := mounted ep; client := client ep;
                                 id := id ep; interval := interval ep;
                                 fetching := false |} s in
        match o with
        | JS.Resolved _ =>
            let s1 := emit [ConsoleLog "useGetcallById: Call fetched successfully:"] s0 in
            if mounted ep then
              {| epochs := epochs s1; active := active s1;
                 call := Some (Stream.call "default" (id ep));
                 isCallLoading := false; clock := clock s1;
                 trace := trace s1 |}
            else s1
        | JS.Rejected error =>
            let s1 := emit [ConsoleError "useGetcallById Error:"] s0 in
            if mounted ep then
              {| epochs := epochs s1; active := active s1; call := call s1;
                 isCallLoading := false; clock := clock s1;
                 trace := trace s1 ++
                   [if JS.error_mentions error "not found"
                    then ToastError "Meeting not found or has ended"
                    else ToastError "Failed to load meeting"] |}
            else s1
        end
  end.

(** The cleanup of epoch [e]: clear the flag and the interval. *)
Definition cleanup (e : nat) (s : State) : State :=
  match epochs s !! e with
  | None => s
  | Some ep =>
      set_epoch e {| mounted := false; client := client ep; id := id ep;
                     interval := None; fetching := fetching ep |} s
  end.

(** How many times an interval set at [t0] fires in the time span
    [(from, to]]. *)
Definition fires (t0 from to : nat) : nat :=
  (to - t0) / period - (from - t0) / period.

(** Time passes: every interval that is still set fires on its period. *)
Definition advance (d : nat) (s : State) : State :=
  let s' :=
    fold_left
      (fun acc e =>
         match epochs s !! e with
         | Some ep =>
             match interval ep with
             | Some t0 => Nat.iter (fires t0 (clock s) (clock s + d)) (tick e) acc
             | None => acc
             end
         | None => acc
         end)
      (seq 0 (length (epochs s))) s in
  {| epochs := epochs s'; active := active s'; call := call s';
     isCallLoading := isCallLoading s'; clock := clock s + d;
     trace := trace s' |}.

Inductive Event : Type :=
| Render (c : option nat) (i : string)
| Unmount
| Advance (d : nat)
| Settle (e : nat) (o : JS.Settled unit).

Definition deactivate (s : State) : State :=
  {| epochs := epochs s; active := None; call := call s;
     isCallLoading := isCallLoading s; clock := clock s; trace := trace s |}.

(** [Render] is the first mount or a change of [[client, id]]. *)
Definition step (ev : Event) (s : State) : State :=
  match ev with
  | Render c i =>
      run_effect c i
        (match active s with
         | Some e => cleanup e s
         | None => s
         end)
  | Unmount =>
      match active s with
      | Some e => deactivate (cleanup e s)
      | None => s
      end
  | Advance d => advance d s
  | Settle e o => resume e o s
  end.

Definition run (evs : list Event) (s : State) : State :=
  fold_left (fun s ev => step ev s) evs s.

Definition is_retry (x : Effect) : bool :=
  match x with
  | ConsoleLog m => String.eqb m retry_msg
  | _ => false
  end.

Definition is_fetch (x : Effect) : bool :=
  match x with
  | CallGet _ => true
  | _ => false
  end.

(** Interval retries and session fetches recorded so far. *)
Definition retries (s : State) : nat := length (List.filter is_retry (trace s)).
Definition fetches (s : State) : nat := length (List.filter is_fetch (trace s)).

(** The meeting page, as a function of what the hooks return. *)
Inductive PageView : Type :=
| LoadingMeeting
| MeetingNotFound
| InCall (c : Stream.Call) (isSetupComplete : bool).

Definition MeetingPage (isLoaded : bool) (s : State)
    (isSetupComplete : bool) : PageView :=
  if negb isLoaded || isCallLoading s then LoadingMeeting
  else match call s with
       | None => MeetingNotFound
       | Some c => InCall c isSetupComplete
       end.

(** What [n] interval retries without a client write to the console. *)
Fixpoint retry_log (n : nat) : list Effect :=
  match n with
  | 0 => []
  | S n => retry_log n ++
           [ConsoleLog retry_msg;
            ConsoleLog "useGetcallById: No client available, waiting..."]
  end.

(** Only the active effect has its interval set. *)
Definition stale_cleared (s : State) : Prop :=
  forall e ep, epochs s !! e = Some ep -> active s <> Some e -> interval ep = None.

Definition all_cleared (s : State) : Prop :=
  forall e ep, epochs s !! e = Some ep -> interval ep = None.

(** [s'] has the active effect and the intervals of [s]. *)
Definition keeps_intervals (s s' : State) : Prop :=
  active s' = active s /\
  forall e ep', epochs s' !! e = Some ep' ->
    exists ep, epochs s !! e = Some ep /\ interval ep' = interval ep.

(** The claim that the retries have a cap, for a consumer whose client
    never arrives. *)
Definition retries_bounded : Prop :=
  exists cap, forall i d, retries (run [Render None i; Advance d] init) <= cap.

(** Only the active effect can still be mounted. *)
Definition stale_unmounted (s : State) : Prop :=
  forall e ep, epochs s !! e = Some ep -> active s <> Some e -> mounted ep = false.

Definition all_unmounted (s : State) : Prop :=
  forall e ep, epochs s !! e = Some ep -> mounted ep = false.

(** A fetch of epoch [fst x] settling with outcome [snd x]. *)
Definition settle (x : nat * JS.Settled unit) : Event := Settle (fst x) (snd x).

Definition is_toast (x : Effect) : bool :=
  match x with
  | ToastError _ => true
  | _ => false
  end.

Definition toasts (s : State) : list Effect := List.filter is_toast (trace s).

(** [s'] has the active effect, the [mounted] flags, the hook's state and
    the toasts of [s]. *)
Definition keeps_hook (s s' : State) : Prop :=
  active s' = active s /\ call s' = call s /\
  isCallLoading s' = isCallLoading s /\ toasts s' = toasts s /\
  forall e ep', epochs s' !! e = Some ep' ->
    exists ep, epochs s !! e = Some ep /\ mounted ep' = mounted ep.

End Lookup.

(* ===================================================================== *)
(** ** The meeting modal: [MeetingModal.handleStart] *)
(* ===================================================================== *)

Module Modal.

Inductive Effect : Type :=
| Action (a : Actions.Effect)
| SetMeetingURL (v : string)
| OnClose.

(** [meetingURL.split("/").pop()] *)
Definition meetingId (meetingURL : string) : option string :=
  JS.pop (JS.split "/" meetingURL).

(** The argument with which [handleStart] calls [joinMeeting], if it
    does. *)
Definition join_argument (meetingURL : string) : option string :=
  match meetingId meetingURL with
  | Some i => if JS.truthy i then Some i else None
  | None => None
  end.

(** [handleStart], up to the suspension of [createInstantMeeting]. *)
Definition handleStart (isJoinMeeting : bool) (meetingURL : string)
    (client : option nat) (uuid now : string) : list Effect :=
  (if isJoinMeeting then
     match join_argument meetingURL with
     | Some i => List.map Action (Actions.joinMeeting client i)
     | None => []
     end
   else List.map Action (fst (Actions.create_begin client uuid now)))
  ++ [SetMeetingURL ""; OnClose].

(** The final segment in words: [seg] has no separator, and the text is
    [seg] itself or ends with a separator followed by [seg]. *)
Definition final_segment (text seg : string) : Prop :=
  ~ In "/"%char (list_ascii_of_string seg) /\
  (text = seg \/ exists before, text = (before ++ "/" ++ seg)%string).

Definition ends_with_slash (text : string) : Prop :=
  exists before, text = (before ++ "/")%string.

Definition navigates (x : Effect) : bool :=
  match x with
  | Action (Actions.RouterPush _) => true
  | _ => false
  end.

Definition reports_error (x : Effect) : bool :=
  match x with
  | Action (Actions.ToastError _) => true
  | _ => false
  end.

End Modal.

(* ===================================================================== *)
(** ** The session token provider: [streamTokenProvider] *)
(* ===================================================================== *)

Module Token.

Inductive Effect : Type :=
| ConsoleLog (msg : string) (arg : option string)
| ConsoleError (msg : string) (err : string).

(** The server action.  [currentUser] is the outcome of
    [await currentUser()]; [generateUserToken] stands for building the
    [StreamClient] from the key and the secret and calling
    [generateUserToken({user_id})] on it. *)
Definition streamTokenProvider (currentUser : JS.result (option Clerk.User))
    (generateUserToken : string -> JS.result string)
    : list Effect * JS.result string :=
  match currentUser with
  | JS.Throw e =>
      ([ConsoleError "Stream Token Provider Error:" e], JS.Throw e)
  | JS.Ok user =>
      let seen := ConsoleLog "Stream Token Provider: Current user:"
                             (option_map Clerk.id user) in
      match user with
      | None =>
          ([seen;
            ConsoleLog "Stream Token Provider: No user found" None;
            ConsoleError "Stream Token Provider Error:" "User not authenticated"],
           JS.Throw "User not authenticated")
      | Some u =>
          match generateUserToken (Clerk.id u) with
          | JS.Ok token =>
              ([seen;
                ConsoleLog "Stream Token Provider: Token generated successfully" None],
               JS.Ok token)
          | JS.Throw e =>
              ([seen; ConsoleError "Stream Token Provider Error:" e], JS.Throw e)
          end
      end
  end.

End Token.

(* ===================================================================== *)
(** ** Role-gated views: [DashboardBtn] and the schedule page *)
(* ===================================================================== *)

Module Gates.

Inductive ButtonView : Type :=
| NoButton
| DashboardLink (href : string).

(** [DashboardBtn], from what [useUSerRole] returned. *)
Definition DashboardBtn (r : Roles.RoleInfo) : ButtonView :=
  if Roles.isCandidate r || Roles.isLoading r then NoButton
  else DashboardLink "/dashboard".

Inductive ScheduleView : Type :=
| ScheduleLoader
| RouterPush (path : string)
| InterviewScheduleUI.

(** The schedule page, from what [useUSerRole] returned. *)
Definition SchedulePage (r : Roles.RoleInfo) : ScheduleView :=
  if Roles.isLoading r then ScheduleLoader
  else if negb (Roles.isInterviewer r) then RouterPush "/"
  else InterviewScheduleUI.

(** Both views over the hook. *)
Definition dashboard_button (user : option Clerk.User)
    (useQuery : string -> Roles.QueryResult) : JS.result ButtonView :=
  match Roles.useUSerRole user useQuery with
  | JS.Ok r => JS.Ok (DashboardBtn r)
  | JS.Throw m => JS.Throw m
  end.

Definition schedule_page (user : option Clerk.User)
    (useQuery : string -> Roles.QueryResult) : JS.result ScheduleView :=
  match Roles.useUSerRole user useQuery with
  | JS.Ok r => JS.Ok (SchedulePage r)
  | JS.Throw m => JS.Throw m
  end.

End Gates.

(* ===================================================================== *)
(** ** The home page: statistics and upcoming interviews *)
(* ===================================================================== *)

Module Home.

(** The fields of an interview document that the page reads. *)
Record Interview : Type := {
  i_id : nat;
  startTime : Z;
  endTime : option Z
}.

(** [useQuery(...) ?? []] *)
Definition or_empty {A : Type} (q : option (list A)) : list A :=
  match q with
  | Some l => l
  | None => []
  end.

(** The largest time value a [Date] holds, in milliseconds: 8.64e15. *)
Definition max_time : Z := 8640000000000000.

(** The time value of [new Date(t)]: beyond 8.64e15 milliseconds either
    side of the epoch the date is invalid and its value is [NaN]. *)
Definition time_value (t : Z) : option Z :=
  if Z.leb (Z.abs t) max_time then Some t else None.

(** [new Date(interview.startTime) > new Date()], with [now] the time
    value of [new Date()]; no comparison with [NaN] holds. *)
Definition is_upcoming (now : Z) (i : Interview) : bool :=
  match time_value (startTime i) with
  | Some t => Z.ltb now t
  | None => false
  end.

(** The truthiness of [i.endTime]: present and not zero. *)
Definition has_ended (i : Interview) : bool :=
  match endTime i with
  | Some t => negb (Z.eqb t 0)
  | None => false
  end.

(** [sort((a, b) => a.startTime - b.startTime)].  The sort is stable, so
    its result is the one of the insertion sort that puts an element
    before the first one that does not start earlier. *)
Fixpoint insert_by_start (x : Interview) (l : list Interview) : list Interview :=
  match l with
  | [] => [x]
  | y :: l' =>
      if Z.leb (startTime x) (startTime y) then x :: y :: l'
      else y :: insert_by_start x l'
  end.

Fixpoint sort_by_start (l : list Interview) : list Interview :=
  match l with
  | [] => []
  | x :: l' => insert_by_start x (sort_by_start l')
  end.

(** [slice(0, n)] *)
Definition slice0 {A : Type} (n : nat) (l : list A) : list A := firstn n l.

Definition upcomingInterviews (now : Z) (interviews : list Interview)
    : list Interview :=
  slice0 3 (sort_by_start (List.filter (is_upcoming now) interviews)).

Definition totalInterviews (interviews : list Interview) : nat :=
  length interviews.

Definition completedInterviews (interviews : list Interview) : nat :=
  length (List.filter has_ended interviews).

Definition totalCandidates (users : list Directory.UserDoc) : nat :=
  length (List.filter (fun u => String.eqb (Directory.role u) "candidate") users).

Definition upcomingCount (now : Z) (interviews : list Interview) : nat :=
  length (upcomingInterviews now interviews).

(** The interviews sorted by start time, earliest first. *)
Definition by_start (l : list Interview) : Prop :=
  forall i j a b, i <= j -> l !! i = Some a -> l !! j = Some b ->
                  (startTime a <= startTime b)%Z.

End Home.

(* ===================================================================== *)
(** ** Sample inputs *)
(* ===================================================================== *)

Module Samples.

(** The no-break space U+00A0. *)
Definition nbsp : string :=
  String (Ascii.ascii_of_nat 194) (String (Ascii.ascii_of_nat 160) "").

Definition ada : Clerk.User :=
  {| Clerk.id := "u1"; Clerk.firstName := Some "Ada";
     Clerk.lastName := Some "Byron"; Clerk.imageUrl := "https://img/u1.png";
     Clerk.emailAddresses := ["ada@example.org"] |}.

Definition ada_args : Directory.Args :=
  {| Directory.a_name := "Ada Byron"; Directory.a_email := "ada@example.org";
     Directory.a_clerkId := "u1"; Directory.a_image := Some "https://img/u1.png" |}.

Definition ada_renamed : Directory.Args :=
  {| Directory.a_name := "Ada Lovelace"; Directory.a_email := "ada@example.org";
     Directory.a_clerkId := "u1"; Directory.a_image := None |}.

Definition shown : Provider.CleanupEnv := {| Provider.hidden := false |}.

Definition tab_hidden : Provider.CleanupEnv := {| Provider.hidden := true |}.

Definition bob : Clerk.User :=
  {| Clerk.id := "u2"; Clerk.firstName := Some "Bob"; Clerk.lastName := None;
     Clerk.imageUrl := "https://img/u2.png";
     Clerk.emailAddresses := ["bob@example.org"] |}.

Definition bob_args : Directory.Args :=
  {| Directory.a_name := "Bob null"; Directory.a_email := "bob@example.org";
     Directory.a_clerkId := "u2"; Directory.a_image := Some "https://img/u2.png" |}.

(** The directory after Ada's first sign-in. *)
Definition ada_only : Directory.Db :=
  fst (Directory.syncUser 1700000000000 ada_args Directory.empty).

(** A provider whose effect obtained its token and published handle 0. *)
Definition ada_connected : Provider.State :=
  Provider.run "pk"
    [Provider.Render true (Some ada) shown;
     Provider.Settle 0 (Provider.TokenResolved "tok" None)]
    Provider.init.

Definition interview (i : nat) (start : Z) (finish : option Z) : Home.Interview :=
  {| Home.i_id := i; Home.startTime := start; Home.endTime := finish |}.

(** Six interviews around the time 1000, and one whose start is no valid
    date. *)
Definition agenda : list Home.Interview :=
  [interview 0 1500 None; interview 1 900 (Some 950%Z); interview 2 1200 None;
   interview 3 1200 (Some 0%Z); interview 4 1100 None; interview 5 2000 None;
   interview 6 8640000000000001 None].

End Samples.

(* ===================================================================== *)
(** * Directory sync *)
(* ===================================================================== *)

Section DirectoryFacts.

Import Directory.

Implicit Types (db : Db) (args : Args) (d : UserDoc) (c : string).

Let has c := fun d => String.eqb (clerkId d) c.
Let touch i args := fun d => if Nat.eqb (_id d) i then refresh args d else d.

Lemma touch_clerkId i args d : clerkId (touch i args d) = clerkId d.
Proof. unfold touch. destruct (Nat.eqb _ _); reflexivity. Qed.

Lemma touch_id i args d : _id (touch i args d) = _id d.
Proof. unfold touch. destruct (Nat.eqb _ _); reflexivity. Qed.

Lemma touch_idem i args d : touch i args (touch i args d) = touch i args d.
Proof.
  unfold touch. destruct (Nat.eqb (_id d) i) eqn:E; simpl.
  - rewrite E. reflexivity.
  - rewrite E. reflexivity.
Qed.

Lemma find_touch c i args (l : list UserDoc) :
  List.find (has c) (List.map (touch i args) l)
  = option_map (touch i args) (List.find (has c) l).
Proof.
  induction l as [|x l IH]; simpl; [reflexivity|].
  unfold has at 1. rewrite touch_clerkId. fold (has c x).
  destruct (has c x); [reflexivity | exact IH].
Qed.

Lemma filter_touch_length c i args (l : list UserDoc) :
  length (List.filter (has c) (List.map (touch i args) l))
  = length (List.filter (has c) l).
Proof.
  induction l as [|x l IH]; simpl; [reflexivity|].
  unfold has at 1. rewrite touch_clerkId. fold (has c x).
  destruct (has c x); simpl; congruence.
Qed.

Lemma find_none_filter c (l : list UserDoc) :
  List.find (has c) l = None -> List.filter (has c) l = [].
Proof.
  induction l as [|x l IH]; simpl; [reflexivity|].
  destruct (has c x); [discriminate | exact IH].
Qed.

Lemma find_snoc_none c (l : list UserDoc) x :
  List.find (has c) l = None -> has c x = true ->
  List.find (has c) (l ++ [x]) = Some x.
Proof.
  induction l as [|y l IH]; simpl; intros Hn Hx.
  - rewrite Hx. reflexivity.
  - destruct (has c y); [discriminate | auto].
Qed.

Lemma has_in_map c (l : list UserDoc) x :
  In x l -> has c x = true -> In c (List.map clerkId l).
Proof.
  intros Hin Hx. apply String.eqb_eq in Hx. subst c.
  apply in_map. exact Hin.
Qed.

Lemma keyed_filter_le c (l : list UserDoc) :
  NoDup (List.map clerkId l) -> length (List.filter (has c) l) <= 1.
Proof.
  induction l as [|x l IH]; simpl; intros Hnd; [lia|].
  inversion Hnd as [|? ? Hnotin Hnd']; subst.
  destruct (has c x) eqn:Hx; [|auto].
  simpl. apply String.eqb_eq in Hx. subst c.
  assert (List.filter (has (clerkId x)) l = []) as ->; [|simpl; lia].
  destruct (List.filter (has (clerkId x)) l) as [|y r] eqn:Hf; [reflexivity|].
  exfalso. apply Hnotin. apply list_elem_of_In.
  assert (In y (List.filter (has (clerkId x)) l)) as Hy by (rewrite Hf; left; reflexivity).
  apply filter_In in Hy as [Hy1 Hy2].
  eapply has_in_map; eauto.
Qed.

Lemma find_some_filter_pos c (l : list UserDoc) d :
  List.find (has c) l = Some d -> 1 <= length (List.filter (has c) l).
Proof.
  induction l as [|x l IH]; simpl; [discriminate|].
  destruct (has c x); simpl; [lia | auto].
Qed.

Lemma touch_fresh_noop args (l : list UserDoc) n :
  Forall (fun d => _id d < n) l -> List.map (touch n args) l = l.
Proof.
  induction 1 as [|x l Hx _ IH]; simpl; [reflexivity|].
  rewrite IH. unfold touch.
  destruct (Nat.eqb_spec (_id x) n); [lia | reflexivity].
Qed.

(** [syncUser] keeps the ids below [next_id] and distinct. *)
Lemma syncUser_ids_ok now args db :
  ids_ok db -> ids_ok (fst (syncUser now args db)).
Proof.
  intros [Hlt Hnd]. unfold syncUser.
  destruct (first_by_clerk_id (a_clerkId args) db) as [d|]; simpl.
  - split; simpl.
    + apply List.Forall_forall. intros x Hx. apply in_map_iff in Hx as (y & <- & Hy).
      fold (touch (_id d) args y). rewrite touch_id.
      eapply (proj1 (List.Forall_forall _ _) Hlt); eauto.
    + rewrite map_map.
      erewrite map_ext; [exact Hnd|].
      intros y. simpl. fold (touch (_id d) args y). apply touch_id.
  - split; simpl.
    + apply Forall_app. split.
      * eapply List.Forall_impl; [|exact Hlt]. simpl. intros; lia.
      * constructor; [simpl; lia | constructor].
    + rewrite map_app. simpl.
      apply NoDup_app. split; [exact Hnd|]. split.
      * intros x Hx Hn. apply list_elem_of_singleton in Hn. subst x.
        apply list_elem_of_In, in_map_iff in Hx as (y & Hy1 & Hy2).
        pose proof (proj1 (List.Forall_forall _ _) Hlt y Hy2) as Hy. simpl in Hy. lia.
      * apply NoDup_singleton.
Qed.

(** [syncUser] keeps at most one document per external id. *)
Lemma syncUser_keyed now args db :
  keyed db -> keyed (fst (syncUser now args db)).
Proof.
  unfold keyed, syncUser. intros Hk.
  destruct (first_by_clerk_id (a_clerkId args) db) as [d|] eqn:Hf; simpl.
  - rewrite map_map. erewrite map_ext; [exact Hk|].
    intros y. simpl. fold (touch (_id d) args y). apply touch_clerkId.
  - rewrite map_app. simpl.
    apply NoDup_app. split; [exact Hk|]. split.
    + intros x Hx Hn. apply list_elem_of_singleton in Hn. subst x.
      apply list_elem_of_In, in_map_iff in Hx as (y & Hy1 & Hy2).
      unfold first_by_clerk_id in Hf.
      eapply find_none in Hf; [|exact Hy2]. simpl in Hf.
      rewrite Hy1 in Hf. rewrite String.eqb_refl in Hf. discriminate.
    + apply NoDup_singleton.
Qed.

Lemma empty_ids_ok : ids_ok empty.
Proof. split; simpl; constructor. Qed.

Lemma empty_keyed : keyed empty.
Proof. constructor. Qed.

(** Every table that a history of syncs builds from the empty one has
    distinct ids and one document per external id. *)
Lemma sync_all_ok (calls : list (Z * Args)) :
  ids_ok (sync_all calls empty) /\ keyed (sync_all calls empty).
Proof.
  unfold sync_all.
  induction calls as [|call calls IH] using rev_ind; simpl.
  - split; [exact empty_ids_ok | exact empty_keyed].
  - rewrite fold_left_app. simpl. destruct IH as [Hi Hk]. split.
    + apply syncUser_ids_ok. exact Hi.
    + apply syncUser_keyed. exact Hk.
Qed.

Lemma first_after_patch c args d db :
  first_by_clerk_id c db = Some d ->
  first_by_clerk_id c (patch (_id d) (refresh args) db) = Some (refresh args d).
Proof.
  unfold first_by_clerk_id, patch. simpl. intros Hf.
  change (List.find (has c) (List.map (touch (_id d) args) (users db))
          = Some (refresh args d)).
  rewrite find_touch. change (List.find (has c) (users db) = Some d) in Hf.
  rewrite Hf. simpl. unfold touch. rewrite Nat.eqb_refl. reflexivity.
Qed.

Lemma found_has c db d : first_by_clerk_id c db = Some d -> clerkId d = c.
Proof.
  unfold first_by_clerk_id. intros Hf. apply find_some in Hf as [_ Hf].
  apply String.eqb_eq in Hf. exact Hf.
Qed.

Lemma patch_twice i args db :
  patch i (refresh args) (patch i (refresh args) db) = patch i (refresh args) db.
Proof.
  unfold patch. simpl. f_equal. rewrite map_map.
  apply map_ext. intros x. apply (touch_idem i args x).
Qed.

(** C5: on the first sync for an external id the table gains one
    document carrying the supplied name, email, external id and avatar,
    the role "candidate" and the creation time; on a later sync the
    document found for that id has its name, email and avatar replaced
    and keeps its id, external id, role and creation time, and no
    document is added. *)
Theorem syncUser_creates_then_refreshes (now : Z) args db :
  (first_by_clerk_id (a_clerkId args) db = None ->
   syncUser now args db
   = ({| users := users db ++
           [{| _id := next_id db; name := a_name args; email := a_email args;
               clerkId := a_clerkId args; role := "candidate";
               image := a_image args; createdAt := now |}];
         next_id := S (next_id db) |},
      Some (next_id db)))
  /\
  (forall d, first_by_clerk_id (a_clerkId args) db = Some d ->
     first_by_clerk_id (a_clerkId args) (fst (syncUser now args db))
     = Some {| _id := _id d; name := a_name args; email := a_email args;
               clerkId := clerkId d; role := role d;
               image := a_image args; createdAt := createdAt d |}
     /\ length (users (fst (syncUser now args db))) = length (users db)
     /\ next_id (fst (syncUser now args db)) = next_id db).
Proof.
  split.
  - intros Hnone. unfold syncUser. rewrite Hnone. reflexivity.
  - intros d Hd. unfold syncUser. rewrite Hd. simpl. repeat split.
    + apply (first_after_patch _ args _ _ Hd).
    + apply length_map.
Qed.

(** The first clause of C5 at the empty table, the second at the table
    the first sync produced. *)
Lemma syncUser_creates_then_refreshes_witness :
  syncUser 1700000000000 Samples.ada_args empty
  = ({| users := [{| _id := 0; name := "Ada Byron"; email := "ada@example.org";
                     clerkId := "u1"; role := "candidate";
                     image := Some "https://img/u1.png";
                     createdAt := 1700000000000 |}];
        next_id := 1 |}, Some 0)
  /\
  first_by_clerk_id "u1"
    (fst (syncUser 1700000090000 Samples.ada_renamed
            (fst (syncUser 1700000000000 Samples.ada_args empty))))
  = Some {| _id := 0; name := "Ada Lovelace"; email := "ada@example.org";
            clerkId := "u1"; role := "candidate"; image := None;
            createdAt := 1700000000000 |}.
Proof.
  split.
  - apply (proj1 (syncUser_creates_then_refreshes 1700000000000 Samples.ada_args empty)).
    reflexivity.
  - apply (proj2 (syncUser_creates_then_refreshes 1700000090000 Samples.ada_renamed
                    (fst (syncUser 1700000000000 Samples.ada_args empty)))
             {| _id := 0; name := "Ada Byron"; email := "ada@example.org";
                clerkId := "u1"; role := "candidate";
                image := Some "https://img/u1.png";
                createdAt := 1700000000000 |}).
    reflexivity.
Defined.

(** C6: on a table with distinct ids and one document per external id,
    a second sync with the same arguments (at any later clock) leaves
    the table exactly as the first one left it, with exactly one
    document for the external id, whose name, email and avatar are the
    arguments'. *)
Theorem syncUser_idempotent (now1 now2 : Z) args db :
  ids_ok db -> keyed db ->
  let db1 := fst (syncUser now1 args db) in
  let db2 := fst (syncUser now2 args db1) in
  db2 = db1 /\
  count_clerk_id (a_clerkId args) db2 = 1 /\
  exists d, first_by_clerk_id (a_clerkId args) db2 = Some d /\
            clerkId d = a_clerkId args /\ name d = a_name args /\
            email d = a_email args /\ image d = a_image args.
Proof.
  intros Hids Hkey db1 db2.
  assert (Hkey1 : keyed db1) by (apply syncUser_keyed; exact Hkey).
  assert (Hfound : exists d, first_by_clerk_id (a_clerkId args) db1 = Some d /\
                             name d = a_name args /\ email d = a_email args /\
                             image d = a_image args /\
                             patch (_id d) (refresh args) db1 = db1).
  { subst db1. unfold syncUser.
    destruct (first_by_clerk_id (a_clerkId args) db) as [d|] eqn:Hf; simpl.
    - exists (refresh args d). split; [apply first_after_patch; exact Hf|].
      repeat split. simpl. apply patch_twice.
    - exists (fresh now1 args (next_id db)). split.
      + unfold first_by_clerk_id. simpl. apply find_snoc_none; [exact Hf|].
        unfold has. simpl. apply String.eqb_refl.
      + repeat split. unfold patch. simpl. f_equal.
        rewrite map_app. simpl. rewrite Nat.eqb_refl.
        destruct Hids as [Hlt _].
        pose proof (touch_fresh_noop args (users db) (next_id db) Hlt) as Ht.
        unfold touch in Ht. simpl. rewrite Ht. reflexivity. }
  destruct Hfound as (d & Hd & Hn & He & Hi & Hfix).
  assert (Heq : db2 = db1).
  { subst db2. unfold syncUser at 1. rewrite Hd. simpl. exact Hfix. }
  split; [exact Heq|]. rewrite Heq. split.
  - unfold count_clerk_id.
    pose proof (keyed_filter_le (a_clerkId args) (users db1) Hkey1).
    pose proof (find_some_filter_pos (a_clerkId args) (users db1) d Hd).
    unfold has in *. lia.
  - exists d. repeat split; auto. eapply found_has; eauto.
Qed.

(** C6 at the empty table. *)
Lemma syncUser_idempotent_witness :
  fst (syncUser 1700000090000 Samples.ada_args
         (fst (syncUser 1700000000000 Samples.ada_args empty)))
  = fst (syncUser 1700000000000 Samples.ada_args empty)
  /\ count_clerk_id "u1"
       (fst (syncUser 1700000090000 Samples.ada_args
               (fst (syncUser 1700000000000 Samples.ada_args empty)))) = 1.
Proof.
  pose proof (syncUser_idempotent 1700000000000 1700000090000 Samples.ada_args
                empty empty_ids_ok empty_keyed) as H.
  simpl in H. destruct H as (H1 & H2 & _). split; [exact H1 | exact H2].
Defined.

End DirectoryFacts.

(** The NavBar effect leaves the directory alone until the identity is
    loaded and present. *)
Lemma navbar_effect_idle (type_error : string) (isLoaded : bool)
    (user : option Clerk.User) (now : Z) (db : Directory.Db) :
  isLoaded = false \/ user = None ->
  Directory.navbar_effect type_error isLoaded user now db = JS.Ok db.
Proof.
  intros [-> | ->]; unfold Directory.navbar_effect; simpl; [reflexivity|].
  destruct isLoaded; reflexivity.
Qed.

(** What NavBar sends for a signed-in user with an address on file. *)
Example navbar_effect_ada (type_error : string) :
  Directory.navbar_effect type_error true (Some Samples.ada) 1700000000000
    Directory.empty
  = JS.Ok (fst (Directory.syncUser 1700000000000 Samples.ada_args Directory.empty)).
Proof. reflexivity. Qed.

(* ===================================================================== *)
(** * Role resolver *)
(* ===================================================================== *)

Section RoleFacts.

Import Roles.

Variable useQuery : string -> QueryResult.

Lemma lookup_key_absent : lookup_key None = "".
Proof. reflexivity. Qed.

Lemma lookup_key_present (u : Clerk.User) :
  Clerk.id u <> "" -> lookup_key (Some u) = Clerk.id u.
Proof.
  intros Hne. unfold lookup_key, JS.or_else, JS.truthy. simpl.
  destruct (String.eqb_spec (Clerk.id u) ""); [contradiction | reflexivity].
Qed.

(** C9: a query that answered [null] yields no loading and neither role;
    a pending query yields loading; loading is reported exactly when the
    query is pending; and with the identity absent the hook looks up the
    empty sentinel and returns normally. *)
Theorem useUSerRole_gating (user : option Clerk.User) :
  (useQuery (lookup_key user) = Null ->
   useUSerRole user useQuery
   = JS.Ok {| isLoading := false; isInterviewer := false; isCandidate := false |})
  /\
  (useQuery (lookup_key user) = Pending ->
   useUSerRole user useQuery
   = JS.Ok {| isLoading := true; isInterviewer := false; isCandidate := false |})
  /\
  (forall r, useUSerRole user useQuery = JS.Ok r ->
             (isLoading r = true <-> useQuery (lookup_key user) = Pending))
  /\
  (exists r, useUSerRole None useQuery = JS.Ok r /\
             r = {| isLoading := is_undefined (useQuery "");
                    isInterviewer := role_is (useQuery "") "interviewer";
                    isCandidate := role_is (useQuery "") "candidate" |}).
Proof.
  unfold useUSerRole. repeat split.
  - intros ->. reflexivity.
  - intros ->. reflexivity.
  - injection H as <-. simpl.
    destruct (useQuery (lookup_key user)); simpl; congruence.
  - intros Hq. injection H as <-. simpl. rewrite Hq. reflexivity.
  - eexists. split; reflexivity.
Qed.

End RoleFacts.

(** C9 at a signed-out visitor whose lookup answered [null], and at a
    signed-in user whose lookup is still pending. *)
Lemma useUSerRole_gating_witness :
  Roles.useUSerRole None (fun _ => Roles.Null)
  = JS.Ok {| Roles.isLoading := false; Roles.isInterviewer := false;
             Roles.isCandidate := false |}
  /\
  Roles.useUSerRole (Some Samples.ada) (fun _ => Roles.Pending)
  = JS.Ok {| Roles.isLoading := true; Roles.isInterviewer := false;
             Roles.isCandidate := false |}.
Proof.
  split.
  - apply (proj1 (useUSerRole_gating (fun _ => Roles.Null) None)). reflexivity.
  - apply (proj1 (proj2 (useUSerRole_gating (fun _ => Roles.Pending)
                           (Some Samples.ada)))).
    reflexivity.
Defined.

(** The spec's example scenario: a user the directory has just created
    is reported as a candidate. *)
Example role_after_first_sync :
  Roles.useUSerRole (Some Samples.ada)
    (Roles.query_of
       (fst (Directory.syncUser 1700000000000 Samples.ada_args Directory.empty)))
  = JS.Ok {| Roles.isLoading := false; Roles.isInterviewer := false;
             Roles.isCandidate := true |}.
Proof. reflexivity. Qed.

(* ===================================================================== *)
(** * Call client lifecycle *)
(* ===================================================================== *)

Section ProviderFacts.

Import Provider.

Variable api_key : string.

Implicit Types (s : State) (e h : nat) (ep : Epoch) (o : TokenOutcome)
               (env : CleanupEnv) (ev : Event).

(** *** What [resume] can change *)

Lemma resume_active e o s : active (resume api_key e o s) = active s.
Proof.
  unfold resume, on_error.
  destruct (epochs s !! e) as [ep|]; [|reflexivity].
  destruct (awaiting ep); [|reflexivity].
  destruct o as [tok [err|]|err]; simpl; destruct (mounted ep); reflexivity.
Qed.

Lemma resume_length e o s :
  length (epochs (resume api_key e o s)) = length (epochs s).
Proof.
  unfold resume, on_error.
  destruct (epochs s !! e) as [ep|]; [|reflexivity].
  destruct (awaiting ep); [|reflexivity].
  destruct o as [tok [err|]|err]; simpl; destruct (mounted ep); simpl;
    rewrite ?length_insert; reflexivity.
Qed.

(** An epoch that is no longer mounted: the settlement only writes to
    the console. *)
Lemma resume_unmounted e ep o s :
  epochs s !! e = Some ep -> mounted ep = false ->
  let s' := resume api_key e o s in
  streamVideoClient s' = streamVideoClient s /\
  clients s' = clients s /\
  publishes s' = publishes s /\
  toasts s' = toasts s /\
  (forall e' ep', epochs s' !! e' = Some ep' ->
     exists ep0, epochs s !! e' = Some ep0 /\ mounted ep' = mounted ep0 /\
                 client ep' = client ep0).
Proof.
  intros Hep Hm. unfold resume, on_error. rewrite Hep.
  destruct (awaiting ep) as [u|] eqn:Ha; simpl.
  2:{ repeat split; eauto. }
  assert (Hlook : forall e' ep',
    <[e := {| mounted := mounted ep; client := client ep; awaiting := None |}]>
      (epochs s) !! e' = Some ep' ->
    exists ep0, epochs s !! e' = Some ep0 /\ mounted ep' = mounted ep0 /\
                client ep' = client ep0).
  { intros e' ep' H. apply list_lookup_insert_Some in H as [(<- & <- & _)|(_ & H)].
    - exists ep. auto.
    - exists ep'. auto. }
  destruct o as [tok ctor|err]; rewrite Hm in *; simpl;
    unfold publishes, toasts; simpl; rewrite ?List.filter_app; simpl;
    rewrite ?app_nil_r; repeat split; auto.
Qed.

(** Either the settlement constructs nothing, or it constructs one
    handle for a mounted epoch that was awaiting its token. *)
Lemma resume_cases e o s :
  let s' := resume api_key e o s in
  (clients s' = clients s /\
   forall e' ep', epochs s' !! e' = Some ep' ->
     exists ep0, epochs s !! e' = Some ep0 /\ mounted ep' = mounted ep0 /\
                 client ep' = client ep0 /\
                 (forall u, awaiting ep' = Some u -> awaiting ep0 = Some u))
  \/
  (exists ep u tok,
     epochs s !! e = Some ep /\ awaiting ep = Some u /\ mounted ep = true /\
     clients s' = clients s ++ [new_client api_key u tok] /\
     epochs s' = <[e := {| mounted := true; client := Some (length (clients s));
                           awaiting := None |}]> (epochs s)).
Proof.
  unfold resume, on_error.
  destruct (epochs s !! e) as [ep|] eqn:Hep.
  2:{ left. split; [reflexivity|]. eauto 10. }
  destruct (awaiting ep) as [u|] eqn:Ha.
  2:{ left. split; [reflexivity|]. eauto 10. }
  assert (Hlook : forall e' ep',
    <[e := {| mounted := mounted ep; client := client ep; awaiting := None |}]>
      (epochs s) !! e' = Some ep' ->
    exists ep0, epochs s !! e' = Some ep0 /\ mounted ep' = mounted ep0 /\
                client ep' = client ep0 /\
                (forall u, awaiting ep' = Some u -> awaiting ep0 = Some u)).
  { intros e' ep' H. apply list_lookup_insert_Some in H as [(<- & <- & _)|(_ & H)].
    - exists ep. simpl. repeat split; auto. discriminate.
    - exists ep'. auto. }
  destruct o as [tok [err|]|err]; simpl.
  - left. destruct (mounted ep); simpl; auto.
  - destruct (mounted ep) eqn:Hm; simpl.
    + right. exists ep, u, tok. repeat split; auto.
      apply list_insert_insert_eq.
    + left. auto.
  - left. auto.
Qed.

(** *** What [cleanup] changes *)

Lemma cleanup_epochs e ep env s :
  epochs s !! e = Some ep ->
  epochs (cleanup e env s)
  = <[e := {| mounted := false; client := client ep; awaiting := awaiting ep |}]>
      (epochs s).
Proof.
  intros Hep. unfold cleanup. rewrite Hep.
  destruct (client ep); [destruct (hidden env)|]; reflexivity.
Qed.

Lemma cleanup_missing e env s : epochs s !! e = None -> cleanup e env s = s.
Proof. intros Hep. unfold cleanup. rewrite Hep. reflexivity. Qed.

Lemma cleanup_active e env s : active (cleanup e env s) = active s.
Proof.
  unfold cleanup. destruct (epochs s !! e) as [ep|]; [|reflexivity].
  destruct (client ep); [destruct (hidden env)|]; reflexivity.
Qed.

Lemma cleanup_lookup e env s e' ep' :
  epochs (cleanup e env s) !! e' = Some ep' ->
  exists ep0, epochs s !! e' = Some ep0 /\ client ep' = client ep0 /\
              awaiting ep' = awaiting ep0 /\
              (mounted ep' = mounted ep0 \/ e' = e /\ mounted ep' = false).
Proof.
  destruct (epochs s !! e) as [ep|] eqn:Hep.
  - rewrite (cleanup_epochs _ _ _ _ Hep). intros H.
    apply list_lookup_insert_Some in H as [(<- & <- & _)|(_ & H)]; eauto 10.
  - rewrite (cleanup_missing _ _ _ Hep). eauto 10.
Qed.

Lemma cleanup_unmounts e env s ep' :
  epochs (cleanup e env s) !! e = Some ep' -> mounted ep' = false.
Proof.
  destruct (epochs s !! e) as [ep|] eqn:Hep.
  - rewrite (cleanup_epochs _ _ _ _ Hep). intros H.
    apply list_lookup_insert_Some in H as [(_ & <- & _)|(Hne & _)];
      [reflexivity | congruence].
  - rewrite (cleanup_missing _ _ _ Hep). congruence.
Qed.

(** A cleanup never brings a handle to life. *)
Lemma cleanup_live e env s h : live (cleanup e env s) h -> live s h.
Proof.
  unfold cleanup. destruct (epochs s !! e) as [ep|]; [|auto].
  destruct (client ep) as [h0|]; [|auto].
  destruct (hidden env); [auto|]. simpl.
  unfold live. simpl.
  destruct (clients s !! h0) as [c0|] eqn:Hc0; [|auto].
  intros (c & Hc & Hon).
  apply list_lookup_insert_Some in Hc as [(<- & <- & _)|(_ & Hc)]; eauto.
  discriminate.
Qed.

(** With the document visible, the handle of the cleaned-up epoch is no
    longer live. *)
Lemma cleanup_disconnects e ep h env s :
  epochs s !! e = Some ep -> client ep = Some h -> hidden env = false ->
  ~ live (cleanup e env s) h.
Proof.
  intros Hep Hc Hv. unfold cleanup. rewrite Hep, Hc, Hv. simpl.
  unfold live. simpl. intros (c & Hl & Hon).
  destruct (clients s !! h) as [c0|] eqn:Hc0.
  - apply list_lookup_insert_Some in Hl as [(_ & <- & _)|(Hne & _)];
      [discriminate | congruence].
  - congruence.
Qed.

(** A cleanup that runs while the document is hidden only clears the
    flag. *)
Lemma cleanup_hidden e env s :
  hidden env = true ->
  clients (cleanup e env s) = clients s /\ trace (cleanup e env s) = trace s /\
  streamVideoClient (cleanup e env s) = streamVideoClient s.
Proof.
  intros Hh. unfold cleanup. destruct (epochs s !! e) as [ep|]; [|auto].
  destruct (client ep); rewrite ?Hh; simpl; auto.
Qed.

(** After a visible cleanup the promise of [disconnectUser] is pending on
    a handle that exists. *)
Lemma cleanup_pending e ep h c env s :
  epochs s !! e = Some ep -> client ep = Some h -> hidden env = false ->
  clients s !! h = Some c ->
  exists c', clients (cleanup e env s) !! h = Some c' /\ disconnecting c' = true.
Proof.
  intros Hep Hc Hv Hl. unfold cleanup. rewrite Hep, Hc, Hv. simpl. rewrite Hl.
  eexists. split; [apply list_lookup_insert_eq; eapply lookup_lt_Some; eauto|].
  reflexivity.
Qed.

(** *** What the settlement of a disconnection changes *)

Lemma disconnect_settled_epochs h r s :
  epochs (disconnect_settled h r s) = epochs s /\
  active (disconnect_settled h r s) = active s /\
  streamVideoClient (disconnect_settled h r s) = streamVideoClient s /\
  length (clients (disconnect_settled h r s)) = length (clients s).
Proof.
  unfold disconnect_settled. destruct (clients s !! h) as [c|]; [|auto].
  destruct (disconnecting c); simpl; rewrite ?length_insert; auto.
Qed.

Lemma disconnect_settled_lookup h r s h' c' :
  clients (disconnect_settled h r s) !! h' = Some c' ->
  exists c, clients s !! h' = Some c /\ connected c' = connected c /\
            user_id c' = user_id c /\ apiKey c' = apiKey c.
Proof.
  unfold disconnect_settled. destruct (clients s !! h) as [c|] eqn:Hc; [|eauto].
  destruct (disconnecting c); [|eauto]. simpl. intros H.
  apply list_lookup_insert_Some in H as [(<- & <- & _)|(_ & H)]; eauto.
Qed.

(** The settlement neither revives nor disconnects a handle. *)
Lemma disconnect_settled_live h r s h' :
  live (disconnect_settled h r s) h' -> live s h'.
Proof.
  intros (c' & Hl & Hon).
  apply disconnect_settled_lookup in Hl as (c & Hl & Hk & _).
  exists c. split; [exact Hl | congruence].
Qed.

(** The settlement writes the rejection to the console, and nothing
    else. *)
Lemma disconnect_settled_trace h r s :
  exists es, trace (disconnect_settled h r s) = trace s ++ es /\
             (es = [] \/ exists err, es = [ConsoleError err]).
Proof.
  unfold disconnect_settled. destruct (clients s !! h) as [c|].
  2:{ exists []. rewrite app_nil_r. auto. }
  destruct (disconnecting c).
  2:{ exists []. rewrite app_nil_r. auto. }
  destruct r as [err|]; simpl; eauto.
Qed.

Lemma disconnect_settled_logs h c r s :
  clients s !! h = Some c -> disconnecting c = true ->
  trace (disconnect_settled h r s)
  = trace s ++ match r with Some err => [ConsoleError err] | None => [] end.
Proof.
  intros Hl Hd. unfold disconnect_settled. rewrite Hl, Hd. reflexivity.
Qed.


(** *** The effect body *)

Lemma run_effect_shape isLoaded user s :
  exists w,
    epochs (run_effect isLoaded user s)
    = epochs s ++ [{| mounted := true; client := None; awaiting := w |}] /\
    active (run_effect isLoaded user s) = Some (length (epochs s)) /\
    clients (run_effect isLoaded user s) = clients s /\
    streamVideoClient (run_effect isLoaded user s) = streamVideoClient s.
Proof.
  unfold run_effect. destruct isLoaded, user as [u|]; simpl; eauto.
Qed.

(** After the cleanup of the active effect no closure is still mounted. *)
Lemma cleanup_active_all_unmounted env s :
  stale_unmounted s ->
  all_unmounted (match active s with
                 | Some e => cleanup e env s
                 | None => s
                 end).
Proof.
  intros Hst. destruct (active s) as [a|] eqn:Ha.
  - intros e ep Hep. destruct (decide (e = a)) as [->|Hne].
    + eapply cleanup_unmounts; eauto.
    + apply cleanup_lookup in Hep as (ep0 & Hep0 & _ & _ & [-> | [? _]]);
        [|contradiction].
      apply (Hst e ep0 Hep0). congruence.
  - intros e ep Hep. apply (Hst e ep Hep). congruence.
Qed.

Lemma run_effect_stale isLoaded user s :
  all_unmounted s -> stale_unmounted (run_effect isLoaded user s).
Proof.
  intros Hall e ep Hep Hact.
  destruct (run_effect_shape isLoaded user s) as (w & He & Ha & _).
  rewrite He in Hep. rewrite Ha in Hact.
  apply lookup_app_Some in Hep as [Hep | [Hge Hep]].
  - eapply Hall; eauto.
  - apply list_lookup_singleton_Some in Hep as [Hz _].
    exfalso. apply Hact. f_equal. lia.
Qed.

(** Only the active effect can be mounted, whatever the events. *)
Lemma step_stale ev s :
  stale_unmounted s -> stale_unmounted (step api_key ev s).
Proof.
  intros Hst. destruct ev as [l u env|env|e o|h r]; simpl.
  - apply run_effect_stale. apply cleanup_active_all_unmounted. exact Hst.
  - pose proof (cleanup_active_all_unmounted env s Hst) as Hall.
    destruct (active s) as [a|]; [|exact Hst].
    intros e ep Hep _. apply (Hall e ep Hep).
  - intros e' ep' Hep' Hact. rewrite resume_active in Hact.
    destruct (resume_cases e o s) as [[_ Hq]|(ep & u & tok & Hep & _ & Hm & _ & He)].
    + destruct (Hq e' ep' Hep') as (ep0 & Hep0 & -> & _). eauto.
    + rewrite He in Hep'.
      apply list_lookup_insert_Some in Hep' as [(<- & _ & _)|(_ & Hep')].
      * rewrite (Hst e ep Hep Hact) in Hm. discriminate.
      * eauto.
  - destruct (disconnect_settled_epochs h r s) as (He & Ha & _).
    unfold stale_unmounted. rewrite He, Ha. exact Hst.
Qed.

Lemma init_stale : stale_unmounted init.
Proof. intros e ep Hep. discriminate. Qed.

Lemma run_snoc evs ev s :
  run api_key (evs ++ [ev]) s = step api_key ev (run api_key evs s).
Proof. unfold run. rewrite fold_left_app. reflexivity. Qed.

Lemma run_stale evs : stale_unmounted (run api_key evs init).
Proof.
  induction evs as [|ev evs IH] using rev_ind; [exact init_stale|].
  rewrite run_snoc. apply step_stale. exact IH.
Qed.

(** *** Nothing is published once every closure is unmounted *)

Lemma resume_all_unmounted e o s :
  all_unmounted s ->
  let s' := resume api_key e o s in
  all_unmounted s' /\
  streamVideoClient s' = streamVideoClient s /\ clients s' = clients s /\
  publishes s' = publishes s /\ toasts s' = toasts s.
Proof.
  intros Hall. simpl.
  destruct (epochs s !! e) as [ep|] eqn:Hep.
  - destruct (resume_unmounted e ep o s Hep (Hall e ep Hep))
      as (H1 & H2 & H3 & H4 & H5).
    repeat split; auto.
    intros e' ep' Hep'. destruct (H5 e' ep' Hep') as (ep0 & Hep0 & -> & _). eauto.
  - unfold resume. rewrite Hep. auto.
Qed.

Lemma late_settlements (late : list (nat * TokenOutcome)) s :
  all_unmounted s ->
  let s' := run api_key (List.map settle late) s in
  streamVideoClient s' = streamVideoClient s /\ clients s' = clients s /\
  publishes s' = publishes s /\ toasts s' = toasts s.
Proof.
  revert s. induction late as [|[e o] late IH]; intros s Hall; simpl; [auto|].
  destruct (resume_all_unmounted e o s Hall) as (Hall' & H1 & H2 & H3 & H4).
  destruct (IH _ Hall') as (G1 & G2 & G3 & G4). simpl in *.
  repeat split; congruence.
Qed.

(** C2: once the provider has been unmounted, however the token
    requests of its effects settle afterwards (resolved or rejected, in
    any order, for any epoch), the published handle is unchanged,
    [setStreamVideoClient] is not called again, no handle is constructed
    and no toast is shown. *)
Theorem no_publish_after_unmount (evs : list Event) env
    (late : list (nat * TokenOutcome)) :
  let s1 := step api_key (Unmount env) (run api_key evs init) in
  let s2 := run api_key (List.map settle late) s1 in
  streamVideoClient s2 = streamVideoClient s1 /\
  publishes s2 = publishes s1 /\
  clients s2 = clients s1 /\
  toasts s2 = toasts s1.
Proof.
  intros s1 s2.
  assert (Hall : all_unmounted s1).
  { subst s1. simpl.
    pose proof (cleanup_active_all_unmounted env _ (run_stale evs)) as Hall.
    destruct (active (run api_key evs init)) as [a|]; [|exact Hall].
    intros e ep Hep. apply (Hall e ep Hep). }
  destruct (late_settlements late s1 Hall) as (H1 & H2 & H3 & H4).
  repeat split; assumption.
Qed.


(** *** At most one live handle while cleanups see a visible document *)

Lemma cleanup_active_quiet env s :
  Inv s -> hidden env = false ->
  quiet (match active s with
         | Some e => cleanup e env s
         | None => s
         end).
Proof.
  intros [Hst Haw Hlv] Hv. split; [|split].
  - apply cleanup_active_all_unmounted. exact Hst.
  - destruct (active s) as [a|]; [|exact Haw].
    intros e ep u Hep Hu.
    apply cleanup_lookup in Hep as (ep0 & Hep0 & -> & Ha & _).
    rewrite Ha in Hu. eauto.
  - destruct (active s) as [a|] eqn:Ha.
    + intros h Hl. pose proof (cleanup_live _ _ _ _ Hl) as Hl0.
      destruct (Hlv h Hl0) as (e & ep & He & Hep & Hc).
      assert (e = a) by congruence. subst e.
      exact (cleanup_disconnects a ep h env s Hep Hc Hv Hl).
    + intros h Hl. destruct (Hlv h Hl) as (e & ep & He & _). discriminate.
Qed.

Lemma run_effect_inv isLoaded user s :
  quiet s -> Inv (run_effect isLoaded user s).
Proof.
  intros (Hall & Haw & Hlv).
  destruct (run_effect_shape isLoaded user s) as (w & He & Ha & Hc & _).
  split.
  - apply run_effect_stale. exact Hall.
  - intros e ep u Hep Hu. rewrite He in Hep.
    apply lookup_app_Some in Hep as [Hep | [_ Hep]]; [eauto|].
    apply list_lookup_singleton_Some in Hep as [_ <-]. reflexivity.
  - intros h (c & Hl & Hon). exfalso. apply (Hlv h).
    exists c. rewrite <- Hc. auto.
Qed.

Lemma deactivate_inv s : quiet s -> Inv (deactivate s).
Proof.
  intros (Hall & Haw & Hlv). split; simpl.
  - intros e ep Hep _. eauto.
  - exact Haw.
  - intros h Hl. exfalso. exact (Hlv h Hl).
Qed.

Lemma resume_inv e o s : Inv s -> Inv (resume api_key e o s).
Proof.
  intros HI. pose proof HI as [Hst Haw Hlv].
  pose proof (resume_cases e o s) as Hcases. simpl in Hcases.
  split.
  - apply (step_stale (Settle e o) s Hst).
  - destruct Hcases as [[_ Hq]|(ep & u & tok & Hep & _ & _ & _ & He)].
    + intros e' ep' u' Hep' Hu'.
      destruct (Hq e' ep' Hep') as (ep0 & Hep0 & _ & -> & Hk). eauto.
    + intros e' ep' u' Hep' Hu'. rewrite He in Hep'.
      apply list_lookup_insert_Some in Hep' as [(_ & <- & _)|(_ & Hep')];
        [discriminate | eauto].
  - rewrite resume_active.
    destruct Hcases as [[Hc Hq]|(ep & u & tok & Hep & Hu & Hm & Hc & He)].
    + intros h (c & Hl & Hon). rewrite Hc in Hl.
      destruct (Hlv h (ex_intro _ c (conj Hl Hon))) as (a & epa & Ha & Hepa & Hca).
      assert (is_Some (epochs (resume api_key e o s) !! a)) as [ep' Hep'].
      { apply lookup_lt_is_Some. rewrite resume_length.
        eapply lookup_lt_Some; eauto. }
      exists a, ep'. split; [exact Ha|]. split; [exact Hep'|].
      destruct (Hq a ep' Hep') as (ep0 & Hep0 & _ & -> & _). congruence.
    + assert (Hact : active s = Some e).
      { destruct (decide (active s = Some e)) as [|Hne]; [assumption|].
        rewrite (Hst e ep Hep Hne) in Hm. discriminate. }
      intros h (c & Hl & Hon). rewrite Hc in Hl.
      apply lookup_snoc_Some in Hl as [[Hlt Hl] | [-> _]].
      * exfalso.
        destruct (Hlv h (ex_intro _ c (conj Hl Hon))) as (a & epa & Ha & Hepa & Hca).
        assert (a = e) by congruence. subst a.
        assert (epa = ep) by congruence. subst epa.
        rewrite (Haw e ep u Hep Hu) in Hca. discriminate.
      * exists e, {| mounted := true; client := Some (length (clients s));
                     awaiting := None |}.
        split; [exact Hact|]. split; [|reflexivity].
        rewrite He. apply list_lookup_insert_eq. eapply lookup_lt_Some; eauto.
Qed.

Lemma disconnect_settled_inv h r s : Inv s -> Inv (disconnect_settled h r s).
Proof.
  intros [Hst Haw Hlv].
  destruct (disconnect_settled_epochs h r s) as (He & Ha & _).
  split; rewrite ?He, ?Ha; [exact Hst | exact Haw |].
  intros h' Hl. apply disconnect_settled_live in Hl. exact (Hlv h' Hl).
Qed.

Lemma step_inv ev s : visible ev -> Inv s -> Inv (step api_key ev s).
Proof.
  intros Hv HI. destruct ev as [l u env|env|e o|h r]; simpl in *.
  - apply run_effect_inv. apply cleanup_active_quiet; assumption.
  - pose proof (cleanup_active_quiet env s HI Hv) as Hq.
    destruct (active s); [apply deactivate_inv; exact Hq | exact HI].
  - apply resume_inv. exact HI.
  - apply disconnect_settled_inv. exact HI.
Qed.

Lemma init_inv : Inv init.
Proof.
  split.
  - exact init_stale.
  - intros e ep u Hep. discriminate.
  - intros h (c & Hl & _). discriminate.
Qed.

Lemma run_inv evs : List.Forall visible evs -> Inv (run api_key evs init).
Proof.
  induction evs as [|ev evs IH] using rev_ind; intros Hv; [exact init_inv|].
  apply List.Forall_app in Hv as [Hv1 Hv2].
  rewrite run_snoc. apply step_inv; [|auto].
  inversion Hv2; assumption.
Qed.

Lemma inv_live_unique s h1 h2 : Inv s -> live s h1 -> live s h2 -> h1 = h2.
Proof.
  intros [_ _ Hlv] H1 H2.
  destruct (Hlv h1 H1) as (e1 & ep1 & Ha1 & Hep1 & Hc1).
  destruct (Hlv h2 H2) as (e2 & ep2 & Ha2 & Hep2 & Hc2).
  congruence.
Qed.

Lemma live_handles_spec s h : In h (live_handles s) <-> live s h.
Proof.
  unfold live_handles, live. rewrite filter_In. split.
  - intros [_ Hf]. destruct (clients s !! h) as [c|]; [eauto | discriminate].
  - intros (c & Hl & Hon). split.
    + apply in_seq. pose proof (lookup_lt_Some _ _ _ Hl). lia.
    + rewrite Hl. exact Hon.
Qed.

Lemma live_handles_nodup s : List.NoDup (live_handles s).
Proof. apply List.NoDup_filter. apply List.seq_NoDup. Qed.

Lemma inv_live_count s : Inv s -> length (live_handles s) <= 1.
Proof.
  intros HI. pose proof (live_handles_nodup s) as Hnd.
  destruct (live_handles s) as [|a [|b r]] eqn:El; simpl; [lia | lia |].
  exfalso.
  assert (a = b).
  { apply (inv_live_unique s a b HI); apply live_handles_spec; rewrite El;
      simpl; auto. }
  subst b. inversion Hnd as [|? ? Hnot _]. apply Hnot. left. reflexivity.
Qed.


Lemma quiet_no_live_handles s : quiet s -> live_handles s = [].
Proof.
  intros (_ & _ & Hlv). destruct (live_handles s) as [|h r] eqn:El; [reflexivity|].
  exfalso. apply (Hlv h). apply live_handles_spec. rewrite El. left. reflexivity.
Qed.

(** C1 (as amended): in every reachable state, a cleanup that runs with
    the document visible on an epoch that constructed a handle clears the
    flag and calls [disconnectUser] on that handle, which is no longer
    live, and returns without logging or throwing; the promise of that
    call is then pending, and when it rejects the rejection is written
    to the console and the handle stays disconnected.  So the handle of
    the active effect is not live after an unmount or a re-run with the
    document visible.  A cleanup that runs while the document is hidden
    only clears the flag: it calls nothing and writes nothing.  And while
    every cleanup has run with the document visible, at most one handle
    is live and an unmount leaves none. *)
Theorem teardown_disconnects_when_visible (evs : list Event) :
  let s := run api_key evs init in
  (forall e ep h env,
     epochs s !! e = Some ep -> client ep = Some h -> hidden env = false ->
     let s' := cleanup e env s in
     ~ live s' h /\
     epochs s' !! e = Some {| mounted := false; client := Some h;
                             awaiting := awaiting ep |} /\
     trace s' = trace s ++
                [ConsoleLog "StreamProvider: Cleaning up client";
                 DisconnectUser h] /\
     (forall c rejects,
        clients s !! h = Some c ->
        let s'' := step api_key (DisconnectSettle h rejects) s' in
        ~ live s'' h /\
        trace s'' = trace s' ++ match rejects with
                                | Some err => [ConsoleError err]
                                | None => []
                                end)) /\
  (forall e ep h env,
     active s = Some e -> epochs s !! e = Some ep -> client ep = Some h ->
     hidden env = false ->
     ~ live (step api_key (Unmount env) s) h /\
     forall isLoaded user, ~ live (step api_key (Render isLoaded user env) s) h) /\
  (forall e ep env,
     epochs s !! e = Some ep -> hidden env = true ->
     let s' := cleanup e env s in
     epochs s' !! e = Some {| mounted := false; client := client ep;
                             awaiting := awaiting ep |} /\
     clients s' = clients s /\
     trace s' = trace s) /\
  (List.Forall visible evs ->
   length (live_handles s) <= 1 /\
   forall env, hidden env = false ->
               live_handles (step api_key (Unmount env) s) = []).
Proof.
  intros s. split; [|split; [|split]].
  2:{ intros e ep h env Ha Hep Hc Henv.
      pose proof (cleanup_disconnects e ep h env s Hep Hc Henv) as Hdead.
      simpl. rewrite Ha. split; [exact Hdead|].
      intros isLoaded user (c & Hl & Hon). apply Hdead.
      destruct (run_effect_shape isLoaded user (cleanup e env s))
        as (w & _ & _ & Hcl & _).
      rewrite Hcl in Hl. exists c. auto. }
  - intros e ep h env Hep Hc Henv s'.
    pose proof (cleanup_disconnects e ep h env s Hep Hc Henv) as Hdead.
    split; [exact Hdead|]. split; [|split].
    + subst s'. rewrite (cleanup_epochs e ep env s Hep), Hc.
      apply list_lookup_insert_eq. eapply lookup_lt_Some; eauto.
    + subst s'. unfold cleanup. rewrite Hep, Hc, Henv. simpl.
      rewrite <- app_assoc. reflexivity.
    + intros c rejects Hl s''. split.
      * intros Hlive. apply Hdead. subst s''. simpl in Hlive.
        exact (disconnect_settled_live _ _ _ _ Hlive).
      * destruct (cleanup_pending e ep h c env s Hep Hc Henv Hl) as (c' & Hl' & Hd).
        subst s''. simpl. exact (disconnect_settled_logs h c' rejects _ Hl' Hd).
  - intros e ep env Hep Henv s'. split; [|split].
    + subst s'. rewrite (cleanup_epochs e ep env s Hep).
      apply list_lookup_insert_eq. eapply lookup_lt_Some; eauto.
    + apply (cleanup_hidden e env s Henv).
    + apply (cleanup_hidden e env s Henv).
  - intros Hv. pose proof (run_inv evs Hv) as HI. fold s in HI.
    split; [exact (inv_live_count s HI)|].
    intros env Henv. simpl.
    pose proof (cleanup_active_quiet env s HI Henv) as Hq.
    destruct (active s) as [a|].
    + apply quiet_no_live_handles. destruct Hq as (H1 & H2 & H3).
      split; [exact H1|]. split; [exact H2 | exact H3].
    + apply quiet_no_live_handles. exact Hq.
Qed.

(** C3 (as amended): when the token request or the constructor fails
    for an epoch that is still mounted, the error is written to the
    console, one toast "Failed to connect to video service" is shown,
    no handle is constructed or published; and what the provider
    renders for a loaded, present identity is what it rendered before
    the failure: the loader when no handle has been published, the
    video context of the published handle otherwise. *)
Theorem failure_notifies_and_keeps_loader e ep (u : Clerk.User) o err s :
  epochs s !! e = Some ep -> awaiting ep = Some u -> mounted ep = true ->
  failure o = Some err ->
  let s' := resume api_key e o s in
  toasts s' = toasts s ++ [ToastError "Failed to connect to video service"] /\
  In (ConsoleError err) (trace s') /\
  streamVideoClient s' = streamVideoClient s /\
  clients s' = clients s /\
  publishes s' = publishes s /\
  (forall user,
     render true (Some user) s'
     = match streamVideoClient s with
       | None => LoaderUI
       | Some h => StreamVideo h
       end).
Proof.
  intros Hep Ha Hm Hf. unfold resume, on_error. rewrite Hep, Ha.
  destruct o as [tok [err'|]|err']; simpl in Hf; try discriminate;
    injection Hf as ->; simpl; rewrite Hm; simpl;
    unfold toasts, publishes, render; simpl;
    rewrite ?List.filter_app; simpl; rewrite ?app_nil_r;
    (repeat split; auto; rewrite !in_app_iff; simpl; auto 10).
Qed.

End ProviderFacts.

(** The display name falls back to the id when both name fields are
    missing or blank. *)
Example display_name_fallback :
  Provider.display_name Samples.ada = "Ada Byron" /\
  Provider.display_name
    {| Clerk.id := "u2"; Clerk.firstName := None; Clerk.lastName := Some "";
       Clerk.imageUrl := ""; Clerk.emailAddresses := [] |} = "u2" /\
  Provider.display_name
    {| Clerk.id := "u3"; Clerk.firstName := None; Clerk.lastName := Some "Kay";
       Clerk.imageUrl := ""; Clerk.emailAddresses := [] |} = "Kay" /\
  Provider.display_name
    {| Clerk.id := "u4"; Clerk.firstName := Some Samples.nbsp;
       Clerk.lastName := Some ("Kay" ++ Samples.nbsp)%string;
       Clerk.imageUrl := ""; Clerk.emailAddresses := [] |} = "Kay".
Proof. repeat split. Qed.

(** C1 at a provider that obtained its token and constructed a handle:
    a visible teardown whose disconnection then rejects, a hidden
    teardown, and an unmount. *)
Lemma teardown_disconnects_when_visible_witness :
  let s := Provider.run "pk"
             [Provider.Render true (Some Samples.ada) Samples.shown;
              Provider.Settle 0 (Provider.TokenResolved "tok" None)]
             Provider.init in
  let s' := Provider.cleanup 0 Samples.shown s in
  let s'' := Provider.step "pk" (Provider.DisconnectSettle 0 (Some "socket closed")) s' in
  ~ Provider.live s' 0 /\
  Provider.trace s'
  = Provider.trace s ++
    [Provider.ConsoleLog "StreamProvider: Cleaning up client";
     Provider.DisconnectUser 0] /\
  ~ Provider.live s'' 0 /\
  Provider.trace s'' = Provider.trace s' ++ [Provider.ConsoleError "socket closed"] /\
  ~ Provider.live
      (Provider.step "pk" (Provider.Render true (Some Samples.bob) Samples.shown) s) 0 /\
  Provider.clients (Provider.cleanup 0 Samples.tab_hidden s) = Provider.clients s /\
  Provider.trace (Provider.cleanup 0 Samples.tab_hidden s) = Provider.trace s /\
  length (Provider.live_handles s) <= 1 /\
  Provider.live_handles (Provider.step "pk" (Provider.Unmount Samples.shown) s) = [].
Proof.
  intros s s' s''.
  assert (Hv : List.Forall Provider.visible
                 [Provider.Render true (Some Samples.ada) Samples.shown;
                  Provider.Settle 0 (Provider.TokenResolved "tok" None)]).
  { repeat constructor. }
  destruct (teardown_disconnects_when_visible "pk"
              [Provider.Render true (Some Samples.ada) Samples.shown;
               Provider.Settle 0 (Provider.TokenResolved "tok" None)])
    as (H1 & H4 & H2 & H3).
  destruct (H1 0 {| Provider.mounted := true; Provider.client := Some 0;
                    Provider.awaiting := None |}
               0 Samples.shown eq_refl eq_refl eq_refl) as (G1 & _ & G3 & G4).
  destruct (H4 0 {| Provider.mounted := true; Provider.client := Some 0;
                    Provider.awaiting := None |}
               0 Samples.shown eq_refl eq_refl eq_refl eq_refl) as (_ & N2).
  destruct (G4 (Provider.new_client "pk" Samples.ada "tok") (Some "socket closed")
               eq_refl) as (K1 & K2).
  destruct (H2 0 {| Provider.mounted := true; Provider.client := Some 0;
                    Provider.awaiting := None |}
               Samples.tab_hidden eq_refl eq_refl) as (_ & L2 & L3).
  destruct (H3 Hv) as (M1 & M2).
  split; [exact G1|]. split; [exact G3|]. split; [exact K1|]. split; [exact K2|].
  split; [exact (N2 true (Some Samples.bob))|].
  split; [exact L2|]. split; [exact L3|]. split; [exact M1|].
  apply M2. reflexivity.
Defined.

(** C1 as stated fails: a cleanup that runs while the document is hidden
    leaves the handle of its epoch connected, and the next epoch then
    constructs a second live handle. *)
Lemma hidden_cleanup_leaves_handle_live :
  let s := Provider.run "pk"
             [Provider.Render true (Some Samples.ada) Samples.shown;
              Provider.Settle 0 (Provider.TokenResolved "tok" None)]
             Provider.init in
  Provider.epochs s !! 0 = Some {| Provider.mounted := true;
                                   Provider.client := Some 0;
                                   Provider.awaiting := None |} /\
  Provider.live_handles (Provider.step "pk" (Provider.Unmount Samples.tab_hidden) s)
  = [0] /\
  Provider.live_handles
    (Provider.run "pk"
       [Provider.Render true (Some Samples.ada) Samples.tab_hidden;
        Provider.Settle 1 (Provider.TokenResolved "tok2" None)] s)
  = [0; 1].
Proof. repeat split. Qed.

(** C2 on a run: the token arrives after the unmount and is dropped. *)
Example late_token_is_dropped :
  let s := Provider.run "pk"
             [Provider.Render true (Some Samples.ada) Samples.shown;
              Provider.Unmount Samples.shown;
              Provider.Settle 0 (Provider.TokenResolved "tok" None)]
             Provider.init in
  Provider.streamVideoClient s = None /\ Provider.clients s = [] /\
  Provider.trace s
  = [Provider.ConsoleLog "StreamProvider: Getting token for user:";
     Provider.TokenRequest "u1";
     Provider.ConsoleLog "StreamProvider: Token received successfully";
     Provider.ConsoleLog "StreamProvider: Component unmounted, aborting initialization"].
Proof. repeat split. Qed.

(** C3 at a rejected token request. *)
Lemma failure_notifies_and_keeps_loader_witness :
  let s := Provider.run "pk"
             [Provider.Render true (Some Samples.ada) Samples.shown]
             Provider.init in
  let s' := Provider.resume "pk" 0 (Provider.TokenRejected "network down") s in
  Provider.toasts s' = [Provider.ToastError "Failed to connect to video service"] /\
  Provider.streamVideoClient s' = None /\
  Provider.render true (Some Samples.ada) s' = Provider.LoaderUI.
Proof.
  intros s s'.
  destruct (failure_notifies_and_keeps_loader "pk" 0
              {| Provider.mounted := true; Provider.client := None;
                 Provider.awaiting := Some Samples.ada |}
              Samples.ada (Provider.TokenRejected "network down") "network down" s
              eq_refl eq_refl eq_refl eq_refl)
    as (H1 & _ & H3 & _ & _ & H6).
  split; [exact H1|]. split; [exact H3|]. exact (H6 Samples.ada).
Defined.

(** C3 as stated fails: after a failed initialisation, with the identity
    loaded and present, the provider renders the loader and not its
    children, whether the token request or the constructor failed. *)
Lemma failed_init_withholds_children :
  let s := Provider.run "pk"
             [Provider.Render true (Some Samples.ada) Samples.shown]
             Provider.init in
  Provider.render true (Some Samples.ada)
    (Provider.step "pk" (Provider.Settle 0 (Provider.TokenRejected "network down")) s)
  = Provider.LoaderUI /\
  Provider.render true (Some Samples.ada)
    (Provider.step "pk" (Provider.Settle 0 (Provider.TokenResolved "tok" (Some "bad key"))) s)
  = Provider.LoaderUI /\
  Provider.LoaderUI <> Provider.Children.
Proof. repeat split. discriminate. Qed.

(** C3 after a publication: the re-run for another identity fails, and
    the provider still hands the first handle to the descendants. *)
Example failed_reinit_keeps_published_handle :
  let s := Provider.run "pk"
             [Provider.Render true (Some Samples.ada) Samples.shown;
              Provider.Settle 0 (Provider.TokenResolved "tok" None);
              Provider.Render true (Some Samples.bob) Samples.shown;
              Provider.Settle 1 (Provider.TokenRejected "network down")]
             Provider.init in
  Provider.render true (Some Samples.bob) s = Provider.StreamVideo 0 /\
  Provider.toasts s = [Provider.ToastError "Failed to connect to video service"] /\
  Provider.live_handles s = [].
Proof. repeat split. Qed.

(* ===================================================================== *)
(** * Call lookup and the meeting page *)
(* ===================================================================== *)

Section LookupFacts.

Import Lookup.

Implicit Types (s : State) (e : nat) (ep : Epoch).

Lemma emit_nil s : emit [] s = s.
Proof. destruct s. unfold emit. simpl. rewrite app_nil_r. reflexivity. Qed.

Lemma emit_emit es es' s : emit es' (emit es s) = emit (es ++ es') s.
Proof. unfold emit. simpl. rewrite app_assoc. reflexivity. Qed.

(** The interval callback of an epoch that captured a client does
    nothing. *)
Lemma tick_ready e ep c s :
  epochs s !! e = Some ep -> client ep = Some c -> tick e s = s.
Proof. intros Hep Hc. unfold tick. rewrite Hep, Hc. reflexivity. Qed.

(** The interval callback of an epoch without a client logs the retry
    and calls [getCall], which returns at its guard. *)
Lemma tick_waiting e ep s :
  epochs s !! e = Some ep -> client ep = None ->
  tick e s = emit (retry_log 1) s.
Proof.
  intros Hep Hc. unfold tick, getCall. rewrite Hep, Hc. simpl.
  rewrite Hep, Hc. rewrite emit_emit. reflexivity.
Qed.

Lemma retry_log_S n : retry_log (S n) = retry_log n ++ retry_log 1.
Proof. reflexivity. Qed.

Lemma iter_tick_waiting n e ep s :
  epochs s !! e = Some ep -> client ep = None ->
  Nat.iter n (tick e) s = emit (retry_log n) s.
Proof.
  intros Hep Hc. induction n as [|n IH].
  - simpl. symmetry. apply emit_nil.
  - rewrite Nat.iter_succ, IH.
    rewrite (tick_waiting e ep); [|exact Hep | exact Hc].
    rewrite emit_emit, retry_log_S. reflexivity.
Qed.

Lemma iter_tick_ready n e ep c s :
  epochs s !! e = Some ep -> client ep = Some c ->
  Nat.iter n (tick e) s = s.
Proof.
  intros Hep Hc. induction n as [|n IH]; [reflexivity|].
  rewrite Nat.iter_succ, IH. eapply tick_ready; eauto.
Qed.

Lemma retries_retry_log n pre :
  length (List.filter is_retry (pre ++ retry_log n))
  = length (List.filter is_retry pre) + n.
Proof.
  induction n as [|n IH].
  - simpl. rewrite app_nil_r. lia.
  - rewrite retry_log_S, app_assoc, List.filter_app, length_app, IH.
    simpl. lia.
Qed.

Lemma fetches_retry_log n pre :
  List.filter is_fetch (pre ++ retry_log n) = List.filter is_fetch pre.
Proof.
  induction n as [|n IH].
  - simpl. rewrite app_nil_r. reflexivity.
  - rewrite retry_log_S, app_assoc, List.filter_app, IH.
    simpl. apply app_nil_r.
Qed.

Lemma fires_from_start d : fires 0 0 d = d / period.
Proof.
  unfold fires. assert (H : (0 - 0) / period = 0) by reflexivity.
  rewrite H. replace (d - 0) with d by lia. apply Nat.sub_0_r.
Qed.

Local Arguments fires : simpl never.
Local Arguments Nat.iter : simpl never.
Local Arguments tick : simpl never.
Local Arguments Nat.div : simpl never.

(** The state of a consumer that waited [d] milliseconds without a
    client. *)
Lemma waiting_state (i : string) (d : nat) :
  run [Render None i; Advance d] init
  = {| epochs := [{| mounted := true; client := None; id := i;
                     interval := Some 0; fetching := false |}];
       active := Some 0; call := None; isCallLoading := true; clock := d;
       trace := ConsoleLog "useGetcallById: No client available, waiting..."
                :: retry_log (d / period) |}.
Proof.
  unfold run. simpl. unfold advance, run_effect, getCall. simpl.
  rewrite fires_from_start.
  erewrite iter_tick_waiting; [|reflexivity|reflexivity].
  reflexivity.
Qed.

(** The client arrives after [d] milliseconds; [d'] more pass. *)
Lemma ready_state (i : string) (c d d' : nat) :
  run [Render None i; Advance d; Render (Some c) i; Advance d'] init
  = {| epochs := [{| mounted := false; client := None; id := i;
                     interval := None; fetching := false |};
                  {| mounted := true; client := Some c; id := i;
                     interval := Some d; fetching := true |}];
       active := Some 1; call := None; isCallLoading := true; clock := d + d';
       trace := (ConsoleLog "useGetcallById: No client available, waiting..."
                 :: retry_log (d / period))
                ++ [ConsoleLog "useGetcallById: Fetching call with id:";
                    CallGet (Stream.call "default" i)] |}.
Proof.
  change [Render None i; Advance d; Render (Some c) i; Advance d']
    with ([Render None i; Advance d] ++ [Render (Some c) i; Advance d']).
  unfold run at 1. rewrite fold_left_app. fold (run [Render None i; Advance d] init).
  rewrite waiting_state. simpl. unfold advance, run_effect, cleanup, getCall. simpl.
  erewrite iter_tick_ready; [|reflexivity|reflexivity].
  reflexivity.
Qed.


(** *** Intervals belong to the active effect only *)

Lemma keeps_refl s : keeps_intervals s s.
Proof. split; eauto. Qed.

Lemma keeps_trans s1 s2 s3 :
  keeps_intervals s1 s2 -> keeps_intervals s2 s3 -> keeps_intervals s1 s3.
Proof.
  intros [Ha Hk] [Ha' Hk']. split; [congruence|].
  intros e ep3 H3. destruct (Hk' e ep3 H3) as (ep2 & H2 & ->). eauto.
Qed.

Lemma keeps_emit es s : keeps_intervals s (emit es s).
Proof. split; simpl; eauto. Qed.

Lemma keeps_getCall e s : keeps_intervals s (getCall e s).
Proof.
  unfold getCall. destruct (epochs s !! e) as [ep|] eqn:Hep; [|apply keeps_refl].
  destruct (client ep); [|apply keeps_emit].
  split; [reflexivity|]. simpl. intros e' ep' H.
  apply list_lookup_insert_Some in H as [(<- & <- & _)|(_ & H)]; eauto.
Qed.

Lemma keeps_tick e s : keeps_intervals s (tick e s).
Proof.
  unfold tick. destruct (epochs s !! e) as [ep|]; [|apply keeps_refl].
  destruct (client ep); [apply keeps_refl|].
  eapply keeps_trans; [apply keeps_emit | apply keeps_getCall].
Qed.

Lemma keeps_iter_tick n e s : keeps_intervals s (Nat.iter n (tick e) s).
Proof.
  induction n as [|n IH]; [apply keeps_refl|].
  rewrite Nat.iter_succ. eapply keeps_trans; [exact IH | apply keeps_tick].
Qed.

Lemma keeps_resume e o s : keeps_intervals s (resume e o s).
Proof.
  unfold resume. destruct (epochs s !! e) as [ep|] eqn:Hep; [|apply keeps_refl].
  destruct (fetching ep); simpl; [|apply keeps_refl].
  assert (Hk : forall e' ep',
    <[e := {| mounted := mounted ep; client := client ep; id := id ep;
              interval := interval ep; fetching := false |}]> (epochs s) !! e'
    = Some ep' ->
    exists ep0, epochs s !! e' = Some ep0 /\ interval ep' = interval ep0).
  { intros e' ep' H.
    apply list_lookup_insert_Some in H as [(<- & <- & _)|(_ & H)]; eauto. }
  destruct o; destruct (mounted ep); split; simpl; auto.
Qed.

Lemma keeps_advance d s : keeps_intervals s (advance d s).
Proof.
  unfold advance.
  assert (H : forall l acc, keeps_intervals s acc ->
    keeps_intervals s
      (fold_left
         (fun acc e =>
            match epochs s !! e with
            | Some ep =>
                match interval ep with
                | Some t0 => Nat.iter (fires t0 (clock s) (clock s + d)) (tick e) acc
                | None => acc
                end
            | None => acc
            end) l acc)).
  { induction l as [|e l IH]; intros acc Hacc; simpl; [exact Hacc|].
    apply IH. destruct (epochs s !! e) as [ep|]; [|exact Hacc].
    destruct (interval ep); [|exact Hacc].
    eapply keeps_trans; [exact Hacc | apply keeps_iter_tick]. }
  destruct (H (seq 0 (length (epochs s))) s (keeps_refl s)) as [Ha Hk].
  split; simpl; assumption.
Qed.

Lemma lookup_cleanup_lookup e s e' ep' :
  epochs (cleanup e s) !! e' = Some ep' ->
  exists ep, epochs s !! e' = Some ep /\
             (interval ep' = interval ep \/ interval ep' = None) /\
             (e' = e -> interval ep' = None).
Proof.
  unfold cleanup. destruct (epochs s !! e) as [ep|] eqn:Hep.
  - simpl. intros H.
    apply list_lookup_insert_Some in H as [(<- & <- & _)|(Hne & H)].
    + exists ep. simpl. auto.
    + exists ep'. repeat split; auto. congruence.
  - intros H. exists ep'. repeat split; auto. intros ->. congruence.
Qed.

Lemma cleanup_active_all_cleared s :
  stale_cleared s ->
  all_cleared (match active s with
               | Some e => cleanup e s
               | None => s
               end).
Proof.
  intros Hst. destruct (active s) as [a|] eqn:Ha.
  - intros e ep Hep. destruct (lookup_cleanup_lookup a s e ep Hep) as (ep0 & H0 & Hi & Hx).
    destruct (decide (e = a)) as [->|Hne]; [auto|].
    destruct Hi as [-> | ->]; [|reflexivity].
    apply (Hst e ep0 H0). congruence.
  - intros e ep Hep. apply (Hst e ep Hep). congruence.
Qed.

Lemma keeps_stale s s' :
  keeps_intervals s s' -> stale_cleared s -> stale_cleared s'.
Proof.
  intros [Ha Hk] Hst e ep' Hep' Hact. rewrite Ha in Hact.
  destruct (Hk e ep' Hep') as (ep & Hep & ->). eauto.
Qed.

Lemma lookup_run_effect_stale c i s :
  all_cleared s -> stale_cleared (run_effect c i s).
Proof.
  intros Hall. unfold run_effect.
  eapply keeps_stale; [apply keeps_getCall|].
  intros e ep Hep Hact. simpl in *.
  apply lookup_app_Some in Hep as [Hep | [Hge Hep]]; [eauto|].
  apply list_lookup_singleton_Some in Hep as [Hz _].
  exfalso. apply Hact. f_equal. lia.
Qed.

Lemma lookup_step_stale ev s : stale_cleared s -> stale_cleared (step ev s).
Proof.
  intros Hst. destruct ev as [c i| |d|e o]; simpl.
  - apply lookup_run_effect_stale, cleanup_active_all_cleared, Hst.
  - pose proof (cleanup_active_all_cleared s Hst) as Hall.
    destruct (active s); [|exact Hst].
    intros e ep Hep _. apply (Hall e ep Hep).
  - eapply keeps_stale; [apply keeps_advance | exact Hst].
  - eapply keeps_stale; [apply keeps_resume | exact Hst].
Qed.

Lemma lookup_run_snoc evs ev s : run (evs ++ [ev]) s = step ev (run evs s).
Proof. unfold run. rewrite fold_left_app. reflexivity. Qed.

Lemma lookup_run_stale evs : stale_cleared (run evs init).
Proof.
  induction evs as [|ev evs IH] using rev_ind.
  - intros e ep Hep. discriminate.
  - rewrite lookup_run_snoc. apply lookup_step_stale, IH.
Qed.

(** With every interval cleared, the passing of time changes nothing
    but the clock. *)
Lemma advance_all_cleared d s :
  all_cleared s ->
  advance d s = {| epochs := epochs s; active := active s; call := call s;
                   isCallLoading := isCallLoading s; clock := clock s + d;
                   trace := trace s |}.
Proof.
  intros Hall. unfold advance.
  assert (H : forall l acc,
    fold_left
      (fun acc e =>
         match epochs s !! e with
         | Some ep =>
             match interval ep with
             | Some t0 => Nat.iter (fires t0 (clock s) (clock s + d)) (tick e) acc
             | None => acc
             end
         | None => acc
         end) l acc = acc).
  { induction l as [|e l IH]; intros acc; simpl; [reflexivity|].
    rewrite IH. destruct (epochs s !! e) as [ep|] eqn:Hep; [|reflexivity].
    rewrite (Hall e ep Hep). reflexivity. }
  rewrite H. reflexivity.
Qed.

Lemma unmount_all_cleared evs : all_cleared (run (evs ++ [Unmount]) init).
Proof.
  rewrite lookup_run_snoc. simpl.
  pose proof (cleanup_active_all_cleared _ (lookup_run_stale evs)) as Hall.
  destruct (active (run evs init)); [|exact Hall].
  intros e ep Hep. apply (Hall e ep Hep).
Qed.


Lemma retries_waiting (i : string) (d : nat) :
  retries (run [Render None i; Advance d] init) = d / period.
Proof.
  rewrite waiting_state. unfold retries. simpl trace.
  apply (retries_retry_log (d / period)
           [ConsoleLog "useGetcallById: No client available, waiting..."]).
Qed.

(** C7 (as amended): while the consumer has no client, the interval
    calls [getCall] once per period, with no cap on the number of
    calls, and none of these calls fetches the session; once the effect
    re-runs with a client it fetches the session once and its interval
    callback does nothing; and after the unmount the passing of time
    produces no further retry. *)
Theorem lookup_retries_while_waiting (i : string) (c d d' : nat)
    (evs : list Event) :
  let waiting := run [Render None i; Advance d] init in
  let ready := run [Render None i; Advance d; Render (Some c) i; Advance d'] init in
  let gone := run (evs ++ [Unmount]) init in
  (retries waiting = d / period /\ fetches waiting = 0) /\
  (retries ready = retries waiting /\ fetches ready = 1 /\
   In (CallGet (Stream.call "default" i)) (trace ready)) /\
  (forall s e ep h, epochs s !! e = Some ep -> client ep = Some h -> tick e s = s) /\
  (trace (step (Advance d') gone) = trace gone /\
   retries (step (Advance d') gone) = retries gone).
Proof.
  intros waiting ready gone.
  assert (Hgone : trace (step (Advance d') gone) = trace gone /\
                  retries (step (Advance d') gone) = retries gone).
  { change (step (Advance d') gone) with (advance d' gone).
    rewrite (advance_all_cleared d' gone (unmount_all_cleared evs)).
    split; reflexivity. }
  subst waiting ready.
  rewrite ready_state, waiting_state. unfold retries, fetches. simpl trace.
  set (first_call := ConsoleLog "useGetcallById: No client available, waiting...").
  change (first_call :: retry_log (d / period))
    with ([first_call] ++ retry_log (d / period)).
  rewrite !List.filter_app.
  pose proof (retries_retry_log (d / period) [first_call]) as Hr.
  pose proof (fetches_retry_log (d / period) [first_call]) as Hf.
  rewrite !List.filter_app in Hr, Hf. simpl in Hr, Hf.
  split; [|split; [|split]].
  - split; [exact Hr | rewrite Hf; reflexivity].
  - split; [|split].
    + simpl. rewrite List.filter_app. simpl. rewrite app_nil_r. reflexivity.
    + simpl. rewrite List.filter_app, Hf. reflexivity.
    + right. apply in_app_iff. right. simpl. auto.
  - intros s e ep h. apply tick_ready.
  - exact Hgone.
Qed.

(** C7 as stated fails: no number bounds the retries of a consumer
    whose client never arrives. *)
Lemma retries_have_no_cap : ~ retries_bounded.
Proof.
  intros [cap Hcap]. specialize (Hcap "" (S cap * period)).
  rewrite retries_waiting in Hcap.
  rewrite Nat.div_mul in Hcap by discriminate. lia.
Qed.

(** C8: with a client, [joinMeeting] does nothing but navigate to
    [/meetings/<id>], whatever the id; the meeting page then shows the
    loading state while it fetches the session, and when that fetch is
    rejected (the session does not exist) it shows "Meeting not found"
    and a toast. *)
Theorem join_navigates_then_not_found (c : nat) (callId : string)
    (err : JS.Thrown) (b : bool) :
  let opened := run [Render (Some c) callId] init in
  let failed := run [Render (Some c) callId; Settle 0 (JS.Rejected err)] init in
  Actions.joinMeeting (Some c) callId
  = [Actions.RouterPush ("/meetings/" ++ callId)] /\
  MeetingPage true opened b = LoadingMeeting /\
  trace opened = [ConsoleLog "useGetcallById: Fetching call with id:";
                  CallGet (Stream.call "default" callId)] /\
  MeetingPage true failed b = MeetingNotFound /\
  trace failed = trace opened ++
                 [ConsoleError "useGetcallById Error:";
                  if JS.error_mentions err "not found"
                  then ToastError "Meeting not found or has ended"
                  else ToastError "Failed to load meeting"].
Proof. repeat split. Qed.

End LookupFacts.

(* ===================================================================== *)
(** * The pasted link and the meeting modal *)
(* ===================================================================== *)

Section StringFacts.

Implicit Types (s t seg : string) (c sep : ascii).

Let chars := list_ascii_of_string.

Lemma chars_app s t : chars (s ++ t)%string = chars s ++ chars t.
Proof. induction s as [|c s IH]; simpl; [reflexivity | f_equal; exact IH]. Qed.

Lemma chars_inj s t : chars s = chars t -> s = t.
Proof.
  revert t. induction s as [|c s IH]; intros [|c' t]; simpl; try discriminate.
  - reflexivity.
  - intros H. injection H as -> H. f_equal. auto.
Qed.

Lemma append_assoc s t u : ((s ++ t) ++ u = s ++ t ++ u)%string.
Proof. induction s as [|c s IH]; simpl; [reflexivity | f_equal; exact IH]. Qed.

Lemma split_not_nil sep s : JS.split sep s <> [].
Proof.
  destruct s as [|c s]; simpl; [discriminate|].
  destruct (Ascii.eqb c sep); [discriminate|].
  destruct (JS.split sep s); discriminate.
Qed.

(** The segments contain no separator, and joining them gives the text
    back. *)
Lemma split_segments sep s :
  List.Forall (fun seg => ~ In sep (chars seg)) (JS.split sep s).
Proof.
  induction s as [|c s IH]; simpl.
  - constructor; [intros [] | constructor].
  - destruct (Ascii.eqb_spec c sep) as [->|Hne].
    + constructor; [intros [] | exact IH].
    + destruct (JS.split sep s) as [|seg rest]; [repeat constructor|].
      * simpl. intros [H|[]]. congruence.
      * inversion IH as [|? ? Hseg Hrest]; subst. constructor; [|exact Hrest].
        simpl. intros [H|H]; [congruence | contradiction].
Qed.

Lemma join_split sep s : JS.join sep (JS.split sep s) = s.
Proof.
  induction s as [|c s IH]; simpl; [reflexivity|].
  destruct (Ascii.eqb_spec c sep) as [->|Hne].
  - pose proof (split_not_nil sep s) as Hnn.
    destruct (JS.split sep s) as [|seg rest]; [contradiction|].
    simpl in *. rewrite IH. reflexivity.
  - pose proof (split_not_nil sep s) as Hnn.
    destruct (JS.split sep s) as [|seg rest]; [contradiction|].
    destruct rest as [|seg' rest]; simpl in *; rewrite IH; reflexivity.
Qed.

Lemma join_pop sep (a : list string) seg :
  JS.pop a = Some seg ->
  JS.join sep a = seg \/
  exists before, JS.join sep a = (before ++ String sep seg)%string.
Proof.
  induction a as [|x a IH]; [discriminate|].
  destruct a as [|y a].
  - simpl. intros [= ->]. left. reflexivity.
  - intros Hp. change (JS.pop (x :: y :: a)) with (JS.pop (y :: a)) in Hp.
    change (JS.join sep (x :: y :: a)) with (x ++ String sep (JS.join sep (y :: a)))%string.
    right. destruct (IH Hp) as [-> | [before ->]].
    + exists x. reflexivity.
    + exists (x ++ String sep before)%string.
      rewrite append_assoc. reflexivity.
Qed.

Lemma pop_in {A} (a : list A) x : JS.pop a = Some x -> In x a.
Proof.
  induction a as [|y a IH]; [discriminate|].
  destruct a as [|z a].
  - simpl. intros [= ->]. left. reflexivity.
  - intros Hp. right. apply IH. exact Hp.
Qed.

(** Two decompositions of one text around the last separator agree. *)
Lemma last_separator_unique {A} (x : A) (l1 l2 a b : list A) :
  ~ In x a -> ~ In x b -> l1 ++ x :: a = l2 ++ x :: b -> a = b.
Proof.
  revert l2. induction l1 as [|y l1 IH]; intros l2 Ha Hb Heq.
  - destruct l2 as [|z l2]; simpl in Heq.
    + congruence.
    + exfalso. injection Heq as -> Heq. apply Ha. rewrite Heq.
      apply in_app_iff. right. left. reflexivity.
  - destruct l2 as [|z l2]; simpl in Heq.
    + exfalso. injection Heq as -> Heq. apply Hb. rewrite <- Heq.
      apply in_app_iff. right. left. reflexivity.
    + injection Heq as -> Heq. eauto.
Qed.

Lemma final_segment_unique s seg seg' :
  Modal.final_segment s seg -> Modal.final_segment s seg' -> seg = seg'.
Proof.
  intros [Hn [-> | [p ->]]] [Hn' [H | [p' H]]].
  - congruence.
  - exfalso. apply Hn. rewrite H. 
    change (list_ascii_of_string (p' ++ "/" ++ seg')%string) with (chars (p' ++ "/" ++ seg')%string).
    rewrite chars_app. apply in_app_iff. right. left. reflexivity.
  - exfalso. apply Hn'. rewrite <- H.
    change (list_ascii_of_string (p ++ "/" ++ seg)%string) with (chars (p ++ "/" ++ seg)%string).
    rewrite chars_app. apply in_app_iff. right. left. reflexivity.
  - apply chars_inj. apply (f_equal chars) in H. rewrite !chars_app in H.
    simpl in H. eapply last_separator_unique; eauto.
Qed.

(** [split("/").pop()] is the final segment. *)
Lemma meetingId_final_segment s :
  exists seg, Modal.meetingId s = Some seg /\ Modal.final_segment s seg.
Proof.
  unfold Modal.meetingId.
  destruct (JS.pop (JS.split "/" s)) as [seg|] eqn:Hp.
  - exists seg. split; [reflexivity|]. split.
    + pose proof (split_segments "/" s) as Hall.
      apply (proj1 (List.Forall_forall _ _) Hall seg). apply pop_in. exact Hp.
    + pose proof (join_pop "/" _ _ Hp) as Hj. rewrite join_split in Hj.
      destruct Hj as [-> | [before ->]]; [left; reflexivity|].
      right. exists before. reflexivity.
  - exfalso. pose proof (split_not_nil "/" s) as Hnn.
    destruct (JS.split "/" s) as [|x a]; [contradiction|].
    clear Hnn. revert x Hp. induction a as [|y a IH]; intros x Hp; [discriminate|].
    apply (IH y). exact Hp.
Qed.

End StringFacts.

Section ModalFacts.

Import Modal.

Variables (client : option nat) (uuid now : string).

Lemma join_argument_final_segment text seg :
  final_segment text seg ->
  join_argument text = if JS.truthy seg then Some seg else None.
Proof.
  intros Hseg. destruct (meetingId_final_segment text) as (seg0 & Hid & Hseg0).
  rewrite (final_segment_unique text seg seg0 Hseg Hseg0).
  unfold join_argument. rewrite Hid. reflexivity.
Qed.

Lemma ends_with_slash_final text : ends_with_slash text -> final_segment text "".
Proof.
  intros [before ->]. split; [intros []|]. right. exists before. reflexivity.
Qed.

(** C10: the text always has a final segment; whenever [handleStart]
    calls [joinMeeting], its argument is that segment, and it is not
    empty; with a non-empty final segment the join branch is
    [joinMeeting] on that segment, then the input is cleared and the
    modal closed; with an empty final segment, in particular when the
    text ends with the separator, nothing happens but clearing the input
    and closing the modal: no navigation and no error report. *)
Theorem handleStart_joins_final_segment (text : string) :
  (exists seg, final_segment text seg) /\
  (forall i, join_argument text = Some i -> final_segment text i /\ i <> "") /\
  (forall seg, final_segment text seg -> seg <> "" ->
     handleStart true text client uuid now
     = List.map Action (Actions.joinMeeting client seg)
       ++ [SetMeetingURL ""; OnClose]) /\
  (final_segment text "" ->
     handleStart true text client uuid now = [SetMeetingURL ""; OnClose]) /\
  (ends_with_slash text ->
     handleStart true text client uuid now = [SetMeetingURL ""; OnClose]).
Proof.
  destruct (meetingId_final_segment text) as (seg0 & Hid & Hseg0).
  split; [eauto|]. split; [|split; [|split]].
  - intros i Hi. rewrite (join_argument_final_segment text seg0 Hseg0) in Hi.
    unfold JS.truthy in Hi.
    destruct (String.eqb_spec seg0 ""); simpl in Hi; [discriminate|].
    injection Hi as <-. auto.
  - intros seg Hseg Hne. unfold handleStart.
    rewrite (join_argument_final_segment text seg Hseg). unfold JS.truthy.
    destruct (String.eqb_spec seg ""); [contradiction | reflexivity].
  - intros Hseg. unfold handleStart.
    rewrite (join_argument_final_segment text "" Hseg). reflexivity.
  - intros Hend. unfold handleStart.
    rewrite (join_argument_final_segment text "" (ends_with_slash_final text Hend)).
    reflexivity.
Qed.

End ModalFacts.

(* ===================================================================== *)
(** * Meeting actions *)
(* ===================================================================== *)

Section ActionFacts.

Import Actions.

Lemma prefix_app (p s : string) :
  String.prefix p s = true <-> exists post, s = (p ++ post)%string.
Proof.
  revert s. induction p as [|a p IH]; intros s.
  - split; [intros _; exists s; reflexivity | destruct s; reflexivity].
  - destruct s as [|b s]; simpl;
      [split; [discriminate | intros [post H]; discriminate]|].
    destruct (Ascii.ascii_dec a b) as [->|Hne].
    + rewrite IH. split; intros [post H]; exists post; congruence.
    + split; [discriminate | intros [post H]; congruence].
Qed.

(** [includes] finds exactly the strings in which the pattern occurs. *)
Lemma includes_contains (s sub : string) :
  JS.includes s sub = true <-> JS.contains s sub.
Proof.
  split.
  - induction s as [|a s IH]; cbn [JS.includes].
    + destruct (String.prefix sub "") eqn:Hp; [|intros H; discriminate H].
      intros _. apply prefix_app in Hp as [post Hp]. exists "", post. exact Hp.
    + destruct (String.prefix sub (String a s)) eqn:Hp.
      * intros _. apply prefix_app in Hp as [post Hp]. exists "", post. exact Hp.
      * intros H. destruct (IH H) as (pre & post & ->).
        exists (String a pre), post. reflexivity.
  - intros (pre & post & ->). induction pre as [|a pre IH].
    + assert (Hp : String.prefix sub ("" ++ sub ++ post) = true)
        by (apply prefix_app; exists post; reflexivity).
      destruct ("" ++ sub ++ post)%string; cbn [JS.includes]; rewrite Hp;
        reflexivity.
    + change (String a pre ++ sub ++ post)%string
        with (String a (pre ++ sub ++ post)).
      cbn [JS.includes].
      destruct (String.prefix sub (String a (pre ++ sub ++ post))); auto.
Qed.

Lemma error_mentions_contains (err : JS.Thrown) (sub : string) :
  JS.error_mentions err sub = true
  <-> exists m, err = JS.ErrorObj m /\ JS.contains m sub.
Proof.
  destruct err as [m|x]; simpl.
  - rewrite includes_contains. split.
    + intros H. exists m. auto.
    + intros (m' & Hm & H). injection Hm as ->. exact H.
  - split; [discriminate | intros (m & Hm & _); discriminate].
Qed.

(** C4: with a client, [createInstantMeeting] first requests the
    creation of the call named by the generated id, and that is all it
    does before the request settles; a navigation is in the trace only
    if the request resolved, and its target is [/meetings/<id>]; on a
    rejection there is no navigation and one error toast: "Connection
    not ready. Please try again in a moment." exactly when what was
    thrown is an [Error] in whose message "token" occurs, and "Failed to
    create meeting. Please try again." for every other rejection. *)
Theorem createInstantMeeting_creates_before_navigating
    (c : nat) (uuid now : string) (o : JS.Settled unit) :
  let t := createInstantMeeting (Some c) uuid now o in
  let request := GetOrCreate (Stream.call "default" uuid) now "Instant Meeting" in
  (exists rest, t = request :: rest /\ List.filter is_request rest = []) /\
  fst (create_begin (Some c) uuid now) = [request] /\
  (forall p, In (RouterPush p) t ->
             (exists v, o = JS.Resolved v) /\ p = ("/meetings/" ++ uuid)%string) /\
  (forall v, o = JS.Resolved v ->
             t = [request; RouterPush ("/meetings/" ++ uuid);
                  ToastSuccess "Meeting Created"]) /\
  (forall err, o = JS.Rejected err ->
     List.filter is_push t = [] /\
     ((exists m, err = JS.ErrorObj m /\ JS.contains m "token") ->
      t = [request; ConsoleError "Failed to create meeting:";
           ToastError "Connection not ready. Please try again in a moment."]) /\
     (~ (exists m, err = JS.ErrorObj m /\ JS.contains m "token") ->
      t = [request; ConsoleError "Failed to create meeting:";
           ToastError "Failed to create meeting. Please try again."])) /\
  "Connection not ready. Please try again in a moment."
  <> "Failed to create meeting. Please try again.".
Proof.
  intros t request.
  assert (Ht : t = request :: create_resume (Stream.call "default" uuid) o)
    by reflexivity.
  split; [|split; [|split; [|split; [|split]]]].
  - exists (create_resume (Stream.call "default" uuid) o). split; [exact Ht|].
    destruct o as [v|err]; simpl; [reflexivity|].
    destruct (JS.error_mentions err "token"); reflexivity.
  - reflexivity.
  - intros p Hin. rewrite Ht in Hin. destruct o as [v|err]; simpl in Hin.
    + destruct Hin as [H|[H|[H|[]]]]; try discriminate.
      injection H as <-. eauto.
    + destruct (JS.error_mentions err "token");
        destruct Hin as [H|[H|[H|[]]]]; discriminate.
  - intros v ->. exact Ht.
  - intros err ->. rewrite Ht. simpl.
    pose proof (error_mentions_contains err "token") as Hm.
    destruct (JS.error_mentions err "token").
    + split; [reflexivity|]. split; [reflexivity|].
      intros Hn. exfalso. apply Hn, Hm. reflexivity.
    + split; [reflexivity|]. split; [|reflexivity].
      intros H. apply Hm in H. discriminate.
  - discriminate.
Qed.

End ActionFacts.

(** C4 on a creation that succeeds, on one that fails with an [Error]
    whose message mentions the token, and on one that fails with a
    thrown string. *)
Lemma createInstantMeeting_creates_before_navigating_witness :
  Actions.createInstantMeeting (Some 0) "abc-123" "2024-05-01T10:00:00.000Z"
    (JS.Resolved tt)
  = [Actions.GetOrCreate (Stream.call "default" "abc-123")
       "2024-05-01T10:00:00.000Z" "Instant Meeting";
     Actions.RouterPush "/meetings/abc-123";
     Actions.ToastSuccess "Meeting Created"]
  /\
  List.filter Actions.is_push
    (Actions.createInstantMeeting (Some 0) "abc-123" "2024-05-01T10:00:00.000Z"
       (JS.Rejected (JS.ErrorObj "token is expired")))
  = []
  /\
  Actions.createInstantMeeting (Some 0) "abc-123" "t"
    (JS.Rejected (JS.ErrorObj "the token is expired"))
  = [Actions.GetOrCreate (Stream.call "default" "abc-123") "t" "Instant Meeting";
     Actions.ConsoleError "Failed to create meeting:";
     Actions.ToastError "Connection not ready. Please try again in a moment."]
  /\
  Actions.createInstantMeeting (Some 0) "abc-123" "t"
    (JS.Rejected (JS.NonError "token"))
  = [Actions.GetOrCreate (Stream.call "default" "abc-123") "t" "Instant Meeting";
     Actions.ConsoleError "Failed to create meeting:";
     Actions.ToastError "Failed to create meeting. Please try again."].
Proof.
  split; [|split; [|split]].
  - apply (proj1 (proj2 (proj2 (proj2
             (createInstantMeeting_creates_before_navigating
                0 "abc-123" "2024-05-01T10:00:00.000Z" (JS.Resolved tt)))))
             tt).
    reflexivity.
  - apply (proj1 (proj2 (proj2 (proj2 (proj2
             (createInstantMeeting_creates_before_navigating
                0 "abc-123" "2024-05-01T10:00:00.000Z"
                (JS.Rejected (JS.ErrorObj "token is expired")))))))
             (JS.ErrorObj "token is expired") eq_refl).
  - apply (proj1 (proj2 (proj1 (proj2 (proj2 (proj2 (proj2
             (createInstantMeeting_creates_before_navigating
                0 "abc-123" "t"
                (JS.Rejected (JS.ErrorObj "the token is expired")))))))
             (JS.ErrorObj "the token is expired") eq_refl))).
    exists "the token is expired". split; [reflexivity|].
    exists "the ", " is expired". reflexivity.
  - apply (proj2 (proj2 (proj1 (proj2 (proj2 (proj2 (proj2
             (createInstantMeeting_creates_before_navigating
                0 "abc-123" "t" (JS.Rejected (JS.NonError "token")))))))
             (JS.NonError "token") eq_refl))).
    intros (m & Hm & _). discriminate.
Defined.

(** C10 on a pasted link, and on the same link with a trailing separator. *)
Lemma handleStart_joins_final_segment_witness :
  Modal.handleStart true "https://app/meetings/abc-123" (Some 0) "u" "t"
  = [Modal.Action (Actions.RouterPush "/meetings/abc-123");
     Modal.SetMeetingURL ""; Modal.OnClose]
  /\
  Modal.handleStart true "https://app/meetings/" (Some 0) "u" "t"
  = [Modal.SetMeetingURL ""; Modal.OnClose].
Proof.
  split.
  - apply (proj1 (proj2 (proj2
             (handleStart_joins_final_segment (Some 0) "u" "t"
                "https://app/meetings/abc-123")))
             "abc-123").
    + split.
      * simpl. intros H. repeat (destruct H as [H|H]; [discriminate|]). exact H.
      * right. exists "https://app/meetings". reflexivity.
    + discriminate.
  - apply (proj2 (proj2 (proj2 (proj2
             (handleStart_joins_final_segment (Some 0) "u" "t"
                "https://app/meetings/"))))).
    exists "https://app/meetings". reflexivity.
Defined.

(** C7 on a consumer that waits three and a half seconds for its client. *)
Lemma lookup_retries_while_waiting_witness :
  Lookup.retries (Lookup.run [Lookup.Render None "abc-123"; Lookup.Advance 3500]
                    Lookup.init) = 3
  /\
  Lookup.fetches
    (Lookup.run [Lookup.Render None "abc-123"; Lookup.Advance 3500;
                 Lookup.Render (Some 0) "abc-123"; Lookup.Advance 2000]
       Lookup.init) = 1
  /\
  Lookup.tick 1
    (Lookup.run [Lookup.Render None "abc-123"; Lookup.Advance 3500;
                 Lookup.Render (Some 0) "abc-123"] Lookup.init)
  = Lookup.run [Lookup.Render None "abc-123"; Lookup.Advance 3500;
                Lookup.Render (Some 0) "abc-123"] Lookup.init.
Proof.
  destruct (lookup_retries_while_waiting "abc-123" 0 3500 2000 [])
    as ((H1 & _) & (_ & H2 & _) & H3 & _).
  split; [exact H1|]. split; [exact H2|].
  apply (H3 _ 1 {| Lookup.mounted := true; Lookup.client := Some 0;
                   Lookup.id := "abc-123"; Lookup.interval := Some 3500;
                   Lookup.fetching := true |} 0); reflexivity.
Defined.

(** C8 on a link to a meeting that does not exist. *)
Example join_unknown_meeting :
  Actions.joinMeeting (Some 0) "no-such-meeting"
  = [Actions.RouterPush "/meetings/no-such-meeting"]
  /\
  Lookup.MeetingPage true
    (Lookup.run [Lookup.Render (Some 0) "no-such-meeting";
                 Lookup.Settle 0 (JS.Rejected (JS.ErrorObj "Call not found"))]
       Lookup.init) false
  = Lookup.MeetingNotFound.
Proof. split; reflexivity. Qed.

(* ===================================================================== *)
(** * Further properties of the directory, the gates, the provider,
      the lookup hook and the home page *)
(* ===================================================================== *)

Section DirectoryFrame.

Import Directory.

Implicit Types (db : Db) (args : Args) (d : UserDoc) (c : string).

Let has c := fun d => String.eqb (clerkId d) c.
Let touch i args := fun d => if Nat.eqb (_id d) i then refresh args d else d.

Lemma ids_injective (l : list UserDoc) x y :
  NoDup (List.map _id l) -> In x l -> In y l -> _id x = _id y -> x = y.
Proof.
  induction l as [|z l IH]; simpl; intros Hnd Hx Hy Heq; [contradiction|].
  apply NoDup_cons in Hnd as [Hz Hnd].
  destruct Hx as [->|Hx], Hy as [->|Hy]; auto.
  - exfalso. apply Hz. rewrite Heq. apply list_elem_of_In, in_map. exact Hy.
  - exfalso. apply Hz. rewrite <- Heq. apply list_elem_of_In, in_map. exact Hx.
Qed.

Lemma find_snoc_other c (l : list UserDoc) x :
  has c x = false -> List.find (has c) (l ++ [x]) = List.find (has c) l.
Proof.
  intros Hx. induction l as [|y l IH]; simpl.
  - rewrite Hx. reflexivity.
  - destruct (has c y); [reflexivity | exact IH].
Qed.

(** X1: on a table with distinct document ids, a sync for one external
    id leaves what [getUser] answers for every other external id as it
    was. *)
Theorem syncUser_leaves_other_users (now : Z) args db c :
  ids_ok db -> c <> a_clerkId args ->
  getUser c (fst (syncUser now args db)) = getUser c db.
Proof.
  intros [_ Hnd] Hne. unfold getUser, syncUser.
  destruct (first_by_clerk_id (a_clerkId args) db) as [d|] eqn:Hd; simpl.
  - unfold first_by_clerk_id, patch. simpl.
    rewrite (find_touch c (_id d) args (users db)).
    destruct (List.find (fun d0 => String.eqb (clerkId d0) c) (users db))
      as [y|] eqn:Hy; [|reflexivity].
    simpl. f_equal.
    destruct (Nat.eqb_spec (_id y) (_id d)) as [Heq|]; [|reflexivity].
    exfalso. apply find_some in Hy as [Hyin Hyc].
    unfold first_by_clerk_id in Hd. apply find_some in Hd as [Hdin Hdc].
    apply String.eqb_eq in Hyc, Hdc.
    assert (y = d) by (eapply ids_injective; eauto). subst y. congruence.
  - unfold first_by_clerk_id. simpl. apply find_snoc_other.
    unfold has. simpl. apply String.eqb_neq. congruence.
Qed.

End DirectoryFrame.

Section GateFacts.

Import Roles Gates.

Variable useQuery : string -> QueryResult.

(** X6: the dashboard button is hidden exactly while the role query is
    pending or when the record found has the role "candidate"; in every
    other case, a missing record included, it links to [/dashboard]. *)
Theorem dashboard_button_visibility (user : option Clerk.User) :
  let answer := useQuery (lookup_key user) in
  let hidden := answer = Pending \/
                exists d, answer = Found d /\ Directory.role d = "candidate" in
  (dashboard_button user useQuery = JS.Ok NoButton <-> hidden) /\
  (dashboard_button user useQuery = JS.Ok (DashboardLink "/dashboard") <-> ~ hidden).
Proof.
  unfold dashboard_button, useUSerRole, DashboardBtn. simpl.
  destruct (useQuery (lookup_key user)) as [| |d]; simpl.
  - split; split; auto; try discriminate.
    intros H. exfalso. apply H. auto.
  - split; split; try discriminate; auto.
    + intros [H|(d & H & _)]; discriminate.
    + intros _ [H|(d & H & _)]; discriminate.
  - rewrite orb_false_r.
    destruct (String.eqb_spec (Directory.role d) "candidate") as [Hc|Hc]; simpl.
    + split; split; auto; try discriminate.
      * intros _. right. eauto.
      * intros H. exfalso. apply H. right. eauto.
    + split; split; try discriminate; auto.
      * intros [H|(d' & H & Hr)]; [discriminate|]. injection H as <-. contradiction.
      * intros _ [H|(d' & H & Hr)]; [discriminate|]. injection H as <-. contradiction.
Qed.

(** X7: the schedule page shows the loader exactly while the role query
    is pending, the scheduling view exactly for a record with the role
    "interviewer", and otherwise pushes the route [/]; whoever sees the
    scheduling view also sees the dashboard button. *)
Theorem schedule_page_gate (user : option Clerk.User) :
  let answer := useQuery (lookup_key user) in
  (schedule_page user useQuery = JS.Ok ScheduleLoader <-> answer = Pending) /\
  (schedule_page user useQuery = JS.Ok InterviewScheduleUI <->
   exists d, answer = Found d /\ Directory.role d = "interviewer") /\
  (schedule_page user useQuery = JS.Ok (RouterPush "/") <->
   answer = Null \/
   exists d, answer = Found d /\ Directory.role d <> "interviewer") /\
  (schedule_page user useQuery = JS.Ok InterviewScheduleUI ->
   dashboard_button user useQuery = JS.Ok (DashboardLink "/dashboard")).
Proof.
  unfold schedule_page, dashboard_button, useUSerRole, SchedulePage, DashboardBtn.
  simpl. destruct (useQuery (lookup_key user)) as [| |d]; simpl.
  - repeat split; auto; try discriminate.
    + intros (d & H & _). discriminate.
    + intros [H|(d & H & _)]; discriminate.
  - repeat split; auto; try discriminate.
    intros (d & H & _). discriminate.
  - destruct (String.eqb_spec (Directory.role d) "interviewer") as [Hi|Hi]; simpl.
    + repeat split; auto; try discriminate.
      * intros _. eauto.
      * intros [H|(d' & H & Hr)]; [discriminate|]. injection H as <-. contradiction.
      * intros _. rewrite Hi. reflexivity.
    + repeat split; auto; try discriminate.
      * intros (d' & H & Hr). injection H as <-. contradiction.
      * intros _. right. eauto.
Qed.

End GateFacts.

Section ProviderAccounting.

Import Provider.

Variable api_key : string.

Implicit Types (s : State) (e h : nat) (ep : Epoch) (o : TokenOutcome)
               (env : CleanupEnv) (ev : Event).

Lemma filter_insert_count {A} (p : A -> bool) (l : list A) (i : nat) (x y : A) :
  l !! i = Some x ->
  length (List.filter p (<[i := y]> l)) + Nat.b2n (p x)
  = length (List.filter p l) + Nat.b2n (p y).
Proof.
  revert i. induction l as [|z l IH]; intros i Hl; [discriminate|].
  destruct i as [|i]; simpl in *.
  - injection Hl as ->. destruct (p x), (p y); simpl; lia.
  - specialize (IH i Hl). destruct (p z); simpl; lia.
Qed.

Ltac trace_count :=
  unfold token_requests, constructions; simpl;
  rewrite ?List.filter_app; simpl; rewrite ?length_app; simpl.

Lemma resume_account e o s :
  let s' := resume api_key e o s in
  token_requests s' = token_requests s /\
  length (clients s') + suspended s' <= length (clients s) + suspended s /\
  constructions s' + length (clients s) = constructions s + length (clients s').
Proof.
  unfold resume, on_error.
  destruct (epochs s !! e) as [ep|] eqn:Hep; [|simpl; lia].
  destruct (awaiting ep) as [u|] eqn:Ha; [|simpl; lia].
  assert (Hs : forall c, 
    length (List.filter is_awaiting
              (<[e := {| mounted := mounted ep; client := c; awaiting := None |}]>
                 (epochs s))) + 1
    = length (List.filter is_awaiting (epochs s))).
  { intros c.
    pose proof (filter_insert_count is_awaiting (epochs s) e ep
                  {| mounted := mounted ep; client := c; awaiting := None |} Hep) as H.
    assert (Hon : is_awaiting ep = true) by (unfold is_awaiting; rewrite Ha; reflexivity).
    rewrite Hon in H.
    change (is_awaiting {| mounted := mounted ep; client := c; awaiting := None |})
      with false in H.
    simpl Nat.b2n in H. lia. }
  destruct o as [tok [err|]|err]; simpl; destruct (mounted ep) eqn:Hm; simpl;
    unfold suspended; trace_count;
    rewrite ?list_insert_insert_eq;
    try (pose proof (Hs (client ep)));
    try (pose proof (Hs (Some (length (clients s)))));
    repeat split; lia.
Qed.

Lemma cleanup_account e env s :
  let s' := cleanup e env s in
  token_requests s' = token_requests s /\
  length (clients s') = length (clients s) /\
  suspended s' = suspended s /\
  constructions s' = constructions s.
Proof.
  unfold cleanup.
  destruct (epochs s !! e) as [ep|] eqn:Hep; [|simpl; auto].
  assert (Hs :
    length (List.filter is_awaiting
              (<[e := {| mounted := false; client := client ep;
                         awaiting := awaiting ep |}]> (epochs s)))
    = length (List.filter is_awaiting (epochs s))).
  { pose proof (filter_insert_count is_awaiting (epochs s) e ep
                  {| mounted := false; client := client ep;
                     awaiting := awaiting ep |} Hep) as H.
    assert (Hsame : is_awaiting {| mounted := false; client := client ep;
                                   awaiting := awaiting ep |} = is_awaiting ep)
      by reflexivity.
    rewrite Hsame in H. lia. }
  destruct (client ep) as [h|]; [destruct (hidden env)|]; simpl;
    unfold suspended; trace_count; try (repeat split; auto; lia).
  destruct (clients s !! h); simpl;
    rewrite ?length_insert; repeat split; auto; lia.
Qed.

Lemma disconnect_settled_account h r s :
  let s' := disconnect_settled h r s in
  token_requests s' = token_requests s /\
  length (clients s') = length (clients s) /\
  suspended s' = suspended s /\
  constructions s' = constructions s.
Proof.
  unfold disconnect_settled. destruct (clients s !! h) as [c|]; [|simpl; auto].
  destruct (disconnecting c); [|simpl; auto].
  destruct r as [err|]; simpl; unfold suspended; trace_count;
    rewrite ?length_insert; repeat split; auto; lia.
Qed.

Lemma run_effect_account isLoaded user s :
  let s' := run_effect isLoaded user s in
  let n := Nat.b2n (isLoaded && match user with Some _ => true | None => false end) in
  token_requests s' = token_requests s + n /\
  clients s' = clients s /\
  suspended s' = suspended s + n /\
  constructions s' = constructions s.
Proof.
  unfold run_effect, suspended.
  destruct isLoaded, user as [u|]; simpl; trace_count;
    rewrite ?List.filter_app, ?length_app; simpl; repeat split; lia.
Qed.

Lemma step_account ev s :
  constructions s = length (clients s) ->
  length (clients s) + suspended s <= token_requests s ->
  let s' := step api_key ev s in
  token_requests s' = token_requests s + Nat.b2n (requests_token ev) /\
  constructions s' = length (clients s') /\
  length (clients s') + suspended s' <= token_requests s'.
Proof.
  intros Hc Hb. destruct ev as [l u env|env|e o|h r]; simpl.
  4:{ destruct (disconnect_settled_account h r s) as (A1 & A2 & A3 & A4).
      simpl in *. repeat split; lia. }
  - set (s1 := match active s with Some e => cleanup e env s | None => s end).
    assert (H1 : token_requests s1 = token_requests s /\
                 length (clients s1) = length (clients s) /\
                 suspended s1 = suspended s /\
                 constructions s1 = constructions s).
    { subst s1. destruct (active s) as [a|]; [apply cleanup_account | auto]. }
    destruct H1 as (A1 & A2 & A3 & A4).
    destruct (run_effect_account l u s1) as (B1 & B2 & B3 & B4).
    rewrite B1, B2, B3, B4.
    assert (Nat.b2n (l && match u with Some _ => true | None => false end)
            = Nat.b2n (match l with
                       | true => match u with Some _ => true | None => false end
                       | false => false
                       end)) as -> by (destruct l; reflexivity).
    repeat split; lia.
  - destruct (active s) as [a|]; simpl; [|repeat split; lia].
    destruct (cleanup_account a env s) as (A1 & A2 & A3 & A4).
    unfold token_requests, constructions, suspended in *. simpl.
    repeat split; lia.
  - destruct (resume_account e o s) as (A1 & A2 & A3).
    repeat split; lia.
Qed.

(** X10: in every reachable state of the provider, a token was requested
    once per run of the effect with a loaded, present identity and never
    otherwise; every handle ever constructed is recorded; and the
    handles constructed plus the effects still waiting for their token
    never outnumber the token requests. *)
Theorem handles_need_token_requests (evs : list Event) :
  let s := run api_key evs init in
  token_requests s = length (List.filter requests_token evs) /\
  constructions s = length (clients s) /\
  length (clients s) + suspended s <= token_requests s.
Proof.
  induction evs as [|ev evs IH] using rev_ind; simpl;
    [repeat split; apply Nat.le_refl|].
  rewrite run_snoc. destruct IH as (I1 & I2 & I3).
  destruct (step_account ev (run api_key evs init) I2 I3) as (S1 & S2 & S3).
  rewrite List.filter_app, length_app. simpl.
  split; [|split; assumption].
  rewrite S1, I1. destruct (requests_token ev); simpl; lia.
Qed.

End ProviderAccounting.

Section ProviderBinding.

Import Provider.

Variable api_key : string.

Implicit Types (s : State) (e h : nat) (ep : Epoch) (o : TokenOutcome)
               (env : CleanupEnv) (ev : Event).

Lemma resume_trace_grows e o s :
  exists es, trace (resume api_key e o s) = trace s ++ es.
Proof.
  unfold resume, on_error.
  destruct (epochs s !! e) as [ep|]; [|exists []; symmetry; apply app_nil_r].
  destruct (awaiting ep); [|exists []; symmetry; apply app_nil_r].
  destruct o as [tok [err|]|err]; simpl; destruct (mounted ep); simpl;
    rewrite <- ?app_assoc; eauto.
Qed.

Lemma cleanup_trace_grows e env s :
  exists es, trace (cleanup e env s) = trace s ++ es.
Proof.
  unfold cleanup.
  destruct (epochs s !! e) as [ep|]; [|exists []; symmetry; apply app_nil_r].
  destruct (client ep); [destruct (hidden env)|]; simpl;
    rewrite <- ?app_assoc; eauto; exists []; symmetry; apply app_nil_r.
Qed.

Lemma run_effect_trace_grows isLoaded user s :
  exists es, trace (run_effect isLoaded user s) = trace s ++ es.
Proof. unfold run_effect. destruct isLoaded, user; simpl; eauto. Qed.

Lemma step_trace_grows ev s : exists es, trace (step api_key ev s) = trace s ++ es.
Proof.
  destruct ev as [l u env|env|e o|h r]; simpl.
  4:{ destruct (disconnect_settled_trace h r s) as (es & Ht & _). eauto. }
  - destruct (run_effect_trace_grows l u
                (match active s with Some e => cleanup e env s | None => s end))
      as [es ->].
    destruct (active s) as [a|]; [|eauto].
    destruct (cleanup_trace_grows a env s) as [es' ->].
    rewrite <- app_assoc. eauto.
  - destruct (active s) as [a|]; [|exists []; symmetry; apply app_nil_r].
    simpl. apply cleanup_trace_grows.
  - apply resume_trace_grows.
Qed.

(** A cleanup and the effect body leave the published handle alone. *)
Lemma cleanup_published e env s :
  streamVideoClient (cleanup e env s) = streamVideoClient s.
Proof.
  unfold cleanup. destruct (epochs s !! e) as [ep|]; [|reflexivity].
  destruct (client ep); [destruct (hidden env)|]; reflexivity.
Qed.

Lemma run_effect_published isLoaded user s :
  streamVideoClient (run_effect isLoaded user s) = streamVideoClient s.
Proof. unfold run_effect. destruct isLoaded, user; reflexivity. Qed.

Lemma cleanup_clients_lookup e env s h c' :
  clients (cleanup e env s) !! h = Some c' ->
  exists c, clients s !! h = Some c /\ user_id c' = user_id c /\
            apiKey c' = apiKey c /\ token c' = token c.
Proof.
  unfold cleanup. destruct (epochs s !! e) as [ep|]; [|eauto].
  destruct (client ep) as [h0|]; [destruct (hidden env)|]; simpl; eauto.
  destruct (clients s !! h0) as [c0|] eqn:Hc0; [|eauto].
  intros H. apply list_lookup_insert_Some in H as [(<- & <- & _)|(_ & H)]; eauto.
Qed.

Lemma init_bound : Bound api_key init.
Proof. split; simpl; intros; discriminate. Qed.

Lemma cleanup_bound e env s : Bound api_key s -> Bound api_key (cleanup e env s).
Proof.
  intros [Ha Hc Hp]. destruct (cleanup_trace_grows e env s) as [es Ht].
  split.
  - intros e' ep' u Hep Hu.
    apply cleanup_lookup in Hep as (ep0 & Hep0 & _ & Haw & _).
    rewrite Haw in Hu. rewrite Ht. apply in_app_iff. left. eauto.
  - intros h c' Hl.
    apply cleanup_clients_lookup in Hl as (c & Hl & -> & -> & _).
    destruct (Hc h c Hl) as (H1 & H2 & H3). rewrite Ht.
    repeat split; auto; apply in_app_iff; auto.
  - intros h Hh. rewrite cleanup_published in Hh.
    destruct (Hp h Hh) as [[c Hl] Hin]. split.
    + apply lookup_lt_is_Some. 
      destruct (cleanup_account e env s) as (_ & Hlen & _).
      rewrite Hlen. eapply lookup_lt_Some; eauto.
    + rewrite Ht. apply in_app_iff. auto.
Qed.

Lemma run_effect_bound isLoaded user s : Bound api_key s -> Bound api_key (run_effect isLoaded user s).
Proof.
  intros [Ha Hc Hp].
  assert (Hgrow : forall x, In x (trace s) -> In x (trace (run_effect isLoaded user s))).
  { intros x Hx. destruct (run_effect_trace_grows isLoaded user s) as [es ->].
    apply in_app_iff. auto. }
  split.
  - intros e ep u Hep Hu. unfold run_effect in *.
    destruct isLoaded, user as [u0|]; simpl in *;
      apply lookup_app_Some in Hep as [Hep | [_ Hep]];
      try (apply in_app_iff; left; eauto; fail);
      apply list_lookup_singleton_Some in Hep as [_ <-]; simpl in Hu;
      try discriminate.
    injection Hu as <-. apply in_app_iff. right. simpl. auto.
  - intros h c Hl.
    destruct (run_effect_shape isLoaded user s) as (w & _ & _ & Hcl & _).
    rewrite Hcl in Hl. destruct (Hc h c Hl) as (H1 & H2 & H3). auto.
  - intros h Hh. rewrite run_effect_published in Hh.
    destruct (run_effect_shape isLoaded user s) as (w & _ & _ & Hcl & _).
    rewrite Hcl. destruct (Hp h Hh). auto.
Qed.

Lemma resume_bound e o s : Bound api_key s -> Bound api_key (resume api_key e o s).
Proof.
  intros HB. pose proof HB as [Ha Hc Hp].
  assert (Hgrow : forall x, In x (trace s) -> In x (trace (resume api_key e o s))).
  { intros x Hx. destruct (resume_trace_grows e o s) as [es ->].
    apply in_app_iff. auto. }
  unfold resume, on_error in *.
  destruct (epochs s !! e) as [ep|] eqn:Hep; [|exact HB].
  destruct (awaiting ep) as [u|] eqn:Hu; [|exact HB].
  pose proof (Ha e ep u Hep Hu) as Hreq.
  assert (Hlook : forall c0 e' ep' u',
    <[e := {| mounted := mounted ep; client := c0; awaiting := None |}]>
      (epochs s) !! e' = Some ep' -> awaiting ep' = Some u' ->
    In (TokenRequest (Clerk.id u')) (trace s)).
  { intros c0 e' ep' u' H Hu'.
    apply list_lookup_insert_Some in H as [(_ & <- & _)|(_ & H)];
      [discriminate | eauto]. }
  destruct o as [tok [err|]|err]; simpl in *; destruct (mounted ep) eqn:Hm;
    simpl in *.
  1,2,4,5,6: (split; simpl;
    [ intros e' ep' u' H Hu'; apply Hgrow; eapply Hlook; eauto
    | intros h c Hl; destruct (Hc h c Hl) as (H1 & H2 & H3); auto
    | intros h Hh; destruct (Hp h Hh); auto ]).
  split; simpl.
  - intros e' ep' u' H Hu'. rewrite list_insert_insert_eq in H.
    apply Hgrow. eapply Hlook; eauto.
  - intros h c Hl. apply lookup_snoc_Some in Hl as [[_ Hl] | [-> <-]].
    + destruct (Hc h c Hl) as (H1 & H2 & H3). auto.
    + simpl. repeat split; auto.
      rewrite !in_app_iff. simpl. auto 10.
  - intros h Hh. injection Hh as <-. split.
    + exists (new_client api_key u tok).
      apply lookup_snoc_Some. right. auto.
    + rewrite !in_app_iff. simpl. auto 10.
Qed.

Lemma deactivate_bound s : Bound api_key s -> Bound api_key (deactivate s).
Proof. intros [Ha Hc Hp]. split; simpl; auto. Qed.

Lemma disconnect_settled_bound h r s :
  Bound api_key s -> Bound api_key (disconnect_settled h r s).
Proof.
  intros [Ha Hc Hp].
  destruct (disconnect_settled_trace h r s) as (es & Ht & _).
  destruct (disconnect_settled_epochs h r s) as (He & _ & Hs & Hlen).
  split.
  - intros e' ep' u Hep Hu. rewrite He in Hep.
    rewrite Ht. apply in_app_iff. left. eauto.
  - intros h' c' Hl.
    apply disconnect_settled_lookup in Hl as (c & Hl & _ & -> & ->).
    destruct (Hc h' c Hl) as (H1 & H2 & H3). rewrite Ht.
    repeat split; auto; apply in_app_iff; auto.
  - intros h' Hh. rewrite Hs in Hh.
    destruct (Hp h' Hh) as [[c Hl] Hin]. split.
    + apply lookup_lt_is_Some. rewrite Hlen. eapply lookup_lt_Some; eauto.
    + rewrite Ht. apply in_app_iff. auto.
Qed.

Lemma step_bound ev s : Bound api_key s -> Bound api_key (step api_key ev s).
Proof.
  intros HB. destruct ev as [l u env|env|e o|h r]; simpl.
  - apply run_effect_bound. destruct (active s); [apply cleanup_bound|]; exact HB.
  - destruct (active s); [apply deactivate_bound, cleanup_bound|]; exact HB.
  - apply resume_bound. exact HB.
  - apply disconnect_settled_bound. exact HB.
Qed.

(** X11: in every reachable state of the provider, each handle carries
    the API key and the id of a user for whom a token was requested
    earlier, and its construction is in the trace; and the published
    handle is one of the constructed handles, published by a
    [setStreamVideoClient] call. *)
Theorem handles_bound_to_requested_identity (evs : list Event) :
  let s := run api_key evs init in
  (forall h c, clients s !! h = Some c ->
     In (TokenRequest (user_id c)) (trace s) /\
     In (Construct h) (trace s) /\ apiKey c = api_key) /\
  (forall h, streamVideoClient s = Some h ->
     is_Some (clients s !! h) /\ In (SetStreamVideoClient h) (trace s)).
Proof.
  simpl. assert (HB : Bound api_key (run api_key evs init)).
  { induction evs as [|ev evs IH] using rev_ind; [exact init_bound|].
    rewrite run_snoc. apply step_bound. exact IH. }
  destruct HB as [_ Hc Hp]. split; assumption.
Qed.

(** X12: a cleanup never clears the published handle: when the active
    effect published its handle and is then torn down with the document
    visible, by an unmount or by a re-run for another identity, the
    handle is disconnected but stays published, and after the re-run the
    provider hands it to the descendants of any loaded, present
    identity. *)
Theorem teardown_keeps_published_handle e ep h env (isLoaded : bool)
    (next : option Clerk.User) s :
  active s = Some e -> epochs s !! e = Some ep -> client ep = Some h ->
  streamVideoClient s = Some h -> hidden env = false ->
  let s' := step api_key (Render isLoaded next env) s in
  streamVideoClient s' = Some h /\ ~ live s' h /\
  streamVideoClient (step api_key (Unmount env) s) = Some h /\
  forall u, render true (Some u) s' = StreamVideo h.
Proof.
  intros Hact Hep Hc Hpub Hv. simpl. rewrite Hact.
  split; [|split; [|split]].
  - rewrite run_effect_published, cleanup_published. exact Hpub.
  - intros (c & Hl & Hon).
    destruct (run_effect_shape isLoaded next (cleanup e env s)) as (w & _ & _ & Hcl & _).
    rewrite Hcl in Hl.
    apply (cleanup_disconnects e ep h env s Hep Hc Hv). exists c. auto.
  - simpl. rewrite cleanup_published. exact Hpub.
  - intros u. unfold render. simpl.
    rewrite run_effect_published, cleanup_published, Hpub. reflexivity.
Qed.

End ProviderBinding.

Section Strip.

Import JS.

Variable ws : list (list ascii).
Hypothesis ws_code : prefix_code ws = true.

Implicit Types (s r w : list ascii).

Lemma strip_prefix_spec w s r : strip_prefix w s = Some r <-> s = w ++ r.
Proof.
  revert s. induction w as [|a w IH]; intros s; simpl.
  - split; congruence.
  - destruct s as [|b s]; [split; discriminate|].
    destruct (Ascii.eqb_spec a b) as [->|Hne].
    + rewrite IH. split; congruence.
    + split; [discriminate | congruence].
Qed.

Lemma ws_nonempty w : In w ws -> w <> [].
Proof.
  intros Hw ->. unfold prefix_code in ws_code.
  rewrite forallb_forall in ws_code. specialize (ws_code [] Hw).
  discriminate.
Qed.

Lemma ws_prefix_free w w' r r' :
  In w ws -> In w' ws -> w ++ r = w' ++ r' -> w = w' /\ r = r'.
Proof.
  intros Hw Hw' Heq.
  assert (Hpre : forall a b x, In a ws -> In b ws -> b = a ++ x -> x = []).
  { intros a b x Ha Hb Hx. unfold prefix_code in ws_code.
    rewrite forallb_forall in ws_code. specialize (ws_code a Ha).
    apply andb_prop in ws_code as [_ Hall].
    rewrite forallb_forall in Hall. specialize (Hall b Hb).
    apply strip_prefix_spec in Hx. rewrite Hx in Hall.
    apply Nat.eqb_eq in Hall. destruct x; [reflexivity | discriminate]. }
  apply app_eq_app in Heq as [l [[H1 H2]|[H1 H2]]].
  - pose proof (Hpre w' w l Hw' Hw H1) as ->. rewrite app_nil_r in H1.
    simpl in H2. auto.
  - pose proof (Hpre w w' l Hw Hw' H1) as ->. rewrite app_nil_r in H1.
    simpl in H2. auto.
Qed.

Lemma drop_first_some s r :
  drop_first ws s = Some r <-> exists w, In w ws /\ s = w ++ r.
Proof.
  split.
  - clear ws_code. induction ws as [|w l IH]; simpl; [discriminate|].
    destruct (strip_prefix w s) as [r'|] eqn:Hs.
    + intros [= ->]. apply strip_prefix_spec in Hs. eauto.
    + intros H. destruct (IH H) as (w' & Hin & Heq). eauto.
  - intros (w & Hw & ->).
    assert (Hfirst : forall l, (forall x, In x l -> In x ws) -> In w l ->
                               drop_first l (w ++ r) = Some r).
    { induction l as [|x l IH]; intros Hsub Hin; [contradiction|]. simpl.
      destruct (strip_prefix x (w ++ r)) as [r'|] eqn:Hs.
      - apply strip_prefix_spec in Hs.
        destruct (ws_prefix_free w x r r' Hw (Hsub x (or_introl eq_refl)) Hs)
          as [_ ->].
        reflexivity.
      - destruct Hin as [->|Hin].
        + assert (Some r = None) as Habs; [|discriminate].
          rewrite <- Hs. symmetry. apply strip_prefix_spec. reflexivity.
        + apply IH; [|exact Hin]. intros y Hy. apply Hsub. right. exact Hy. }
    apply Hfirst; auto.
Qed.

Lemma drop_first_shorter s r : drop_first ws s = Some r -> length r < length s.
Proof.
  intros H. apply drop_first_some in H as (w & Hw & ->).
  pose proof (ws_nonempty w Hw). rewrite length_app.
  destruct w; [contradiction | simpl; lia].
Qed.

Lemma strip_leading_fuel n m s :
  length s <= n -> length s <= m -> strip_leading ws n s = strip_leading ws m s.
Proof.
  revert m s. induction n as [|n IH]; intros m s Hn Hm.
  - destruct s; [|simpl in Hn; lia]. destruct m; simpl; [reflexivity|].
    destruct (drop_first ws []) as [r|] eqn:Hd; [|reflexivity].
    apply drop_first_shorter in Hd. simpl in Hd. lia.
  - simpl. destruct (drop_first ws s) as [r|] eqn:Hd.
    + pose proof (drop_first_shorter s r Hd) as Hlt.
      destruct m as [|m]; [lia|]. simpl. rewrite Hd. apply IH; lia.
    + destruct m; simpl; [reflexivity|]. rewrite Hd. reflexivity.
Qed.

(** The equation of [lstrip]. *)
Lemma lstrip_eq s :
  lstrip ws s = match drop_first ws s with
                | Some r => lstrip ws r
                | None => s
                end.
Proof.
  unfold lstrip. destruct (drop_first ws s) as [r|] eqn:Hd.
  - pose proof (drop_first_shorter s r Hd) as Hlt.
    destruct (length s) as [|n] eqn:Hl; [lia|]. simpl. rewrite Hd.
    apply strip_leading_fuel; lia.
  - destruct (length s); simpl; [reflexivity|]. rewrite Hd. reflexivity.
Qed.

Lemma Blank_app a b : Blank ws a -> Blank ws b -> Blank ws (a ++ b).
Proof.
  induction 1 as [|w r Hw Hr IH]; intros Hb; [exact Hb|].
  rewrite <- app_assoc. constructor; auto.
Qed.

(** [lstrip] removes a blank prefix and leaves a sequence that starts
    with no member of [ws]. *)
Lemma lstrip_decompose s :
  exists w, Blank ws w /\ s = w ++ lstrip ws s /\
            drop_first ws (lstrip ws s) = None.
Proof.
  remember (length s) as n eqn:Hn. revert s Hn.
  induction n as [n IH] using lt_wf_ind. intros s ->.
  rewrite lstrip_eq. destruct (drop_first ws s) as [r|] eqn:Hd.
  - pose proof (drop_first_shorter s r Hd) as Hlt.
    destruct (IH (length r) Hlt r eq_refl) as (w & Hw & Hr & Hnone).
    apply drop_first_some in Hd as (t & Ht & ->).
    exists (t ++ w). split; [constructor; assumption|].
    split; [|exact Hnone]. rewrite <- app_assoc. f_equal. exact Hr.
  - exists []. split; [constructor|]. split; [reflexivity | exact Hd].
Qed.

Lemma Blank_lstrip s : Blank ws s -> lstrip ws s = [].
Proof.
  induction 1 as [|w r Hw Hr IH]; [reflexivity|].
  rewrite lstrip_eq.
  assert (Hd : drop_first ws (w ++ r) = Some r)
    by (apply drop_first_some; eauto).
  rewrite Hd. exact IH.
Qed.

Lemma lstrip_nil s : lstrip ws s = [] <-> Blank ws s.
Proof.
  split; [|apply Blank_lstrip].
  intros H. destruct (lstrip_decompose s) as (w & Hw & Hs & _).
  rewrite H, app_nil_r in Hs. subst s. exact Hw.
Qed.

Lemma lstrip_fixed s : drop_first ws s = None -> lstrip ws s = s.
Proof. intros H. rewrite lstrip_eq, H. reflexivity. Qed.

(** A sequence that starts with no member of [ws] has no prefix that
    does. *)
Lemma drop_first_none_prefix s x :
  drop_first ws (s ++ x) = None -> s <> [] -> drop_first ws s = None.
Proof.
  intros Hnone Hne. destruct (drop_first ws s) as [r|] eqn:Hd; [|reflexivity].
  apply drop_first_some in Hd as (w & Hw & ->).
  assert (drop_first ws ((w ++ r) ++ x) = Some (r ++ x)) as Habs.
  { apply drop_first_some. exists w. rewrite app_assoc. auto. }
  congruence.
Qed.

End Strip.

Section TrimFacts.

Import JS.

Implicit Types (s r w : list ascii).

Lemma white_space_code : prefix_code white_space = true.
Proof. vm_compute. reflexivity. Qed.

Lemma white_space_rev_code : prefix_code (List.map (@rev ascii) white_space) = true.
Proof. vm_compute. reflexivity. Qed.

Lemma Blank_rev ws s : Blank ws s -> Blank (List.map (@rev ascii) ws) (rev s).
Proof.
  induction 1 as [|w r Hw Hr IH]; [constructor|].
  rewrite rev_app_distr. apply Blank_app; [exact IH|].
  rewrite <- (app_nil_r (rev w)). constructor; [|constructor].
  apply in_map. exact Hw.
Qed.

Lemma map_rev_rev (ws : list (list ascii)) :
  List.map (@rev ascii) (List.map (@rev ascii) ws) = ws.
Proof.
  rewrite map_map. rewrite <- (map_id ws) at 2. apply map_ext.
  intros x. apply rev_involutive.
Qed.

Lemma Blank_rev_iff ws s : Blank (List.map (@rev ascii) ws) (rev s) <-> Blank ws s.
Proof.
  split; [|apply Blank_rev].
  intros H. apply Blank_rev in H. rewrite map_rev_rev, rev_involutive in H.
  exact H.
Qed.

Lemma rstrip_nil s : rstrip white_space s = [] <-> Blank white_space s.
Proof.
  unfold rstrip. rewrite <- Blank_rev_iff.
  rewrite <- (lstrip_nil _ white_space_rev_code). split.
  - intros H. apply (f_equal (@rev ascii)) in H. rewrite rev_involutive in H.
    exact H.
  - intros ->. reflexivity.
Qed.

(** [rstrip] removes a blank suffix. *)
Lemma rstrip_decompose s :
  exists w, Blank white_space w /\ s = rstrip white_space s ++ w /\
            drop_first (List.map (@rev ascii) white_space)
                       (rev (rstrip white_space s)) = None.
Proof.
  destruct (lstrip_decompose _ white_space_rev_code (rev s)) as (w & Hw & Hs & Hn).
  exists (rev w). split; [|split].
  - apply Blank_rev_iff. rewrite rev_involutive. exact Hw.
  - unfold rstrip. rewrite <- rev_app_distr, <- Hs, rev_involutive. reflexivity.
  - unfold rstrip. rewrite rev_involutive. exact Hn.
Qed.

Lemma trim_bytes_nil s : trim_bytes s = [] <-> Blank white_space s.
Proof.
  unfold trim_bytes. rewrite rstrip_nil. split.
  - intros H. destruct (lstrip_decompose _ white_space_code s) as (w & Hw & Hs & _).
    rewrite Hs. apply Blank_app; assumption.
  - intros H. rewrite (Blank_lstrip _ white_space_code s H). constructor.
Qed.

Lemma trim_bytes_idem s : trim_bytes (trim_bytes s) = trim_bytes s.
Proof.
  unfold trim_bytes. set (x := lstrip white_space s).
  destruct (lstrip_decompose _ white_space_code s) as (w & _ & _ & Hx). fold x in Hx.
  destruct (rstrip_decompose x) as (v & _ & Hv & Hy).
  set (y := rstrip white_space x) in *.
  assert (Hfix : lstrip white_space y = y).
  { destruct y as [|c y'] eqn:Ey; [reflexivity|]. rewrite <- Ey in *.
    apply (lstrip_fixed _ white_space_code).
    apply (drop_first_none_prefix _ white_space_code y v).
    - rewrite <- Hv. exact Hx.
    - rewrite Ey. discriminate. }
  rewrite Hfix. unfold rstrip.
  rewrite (lstrip_fixed _ white_space_rev_code _ Hy). apply rev_involutive.
Qed.

Lemma white_space_alone : stands_alone " "%char white_space = true.
Proof. vm_compute. reflexivity. Qed.

(** Around a space, a sequence is blank exactly when both sides are. *)
Lemma Blank_around_space f l :
  Blank white_space (f ++ " "%char :: l)
  <-> Blank white_space f /\ Blank white_space l.
Proof.
  split.
  - remember (f ++ " "%char :: l) as s eqn:Hs. intros H. revert f Hs.
    induction H as [|w r Hw Hr IH]; intros f Hs.
    + destruct f; discriminate.
    + pose proof white_space_alone as Hal. unfold stands_alone in Hal.
      rewrite forallb_forall in Hal. specialize (Hal w Hw).
      apply app_eq_app in Hs as [m [[H1 H2]|[H1 H2]]].
      * (* w = f ++ m, with the space in m or m empty *)
        destruct m as [|c m].
        -- rewrite app_nil_r in H1. subst w. simpl in H2. subst r.
           destruct (IH [] eq_refl) as [_ Hl]. split; [|exact Hl].
           rewrite <- (app_nil_r f). constructor; [exact Hw | constructor].
        -- simpl in H2. injection H2 as <- ->.
           destruct f as [|a f].
           ++ simpl in H1. subst w. simpl in Hal.
              apply andb_prop in Hal as [_ Hal].
              apply Nat.eqb_eq in Hal. destruct m; [|discriminate].
              split; [constructor | exact Hr].
           ++ simpl in H1. subst w. simpl in Hal.
              apply andb_prop in Hal as [Hal _].
              rewrite existsb_app in Hal. simpl in Hal.
              rewrite orb_true_r in Hal. discriminate.
      * destruct (IH m H2) as [Hm Hl]. split; [|exact Hl].
        subst f. constructor; assumption.
  - intros [Hf Hl]. apply (Blank_app _ _ _ Hf).
    change (" "%char :: l) with ([" "%char] ++ l). constructor; [|exact Hl].
    vm_compute. auto 10.
Qed.

Lemma bytes_app (a b : string) :
  list_ascii_of_string (a ++ b)%string
  = list_ascii_of_string a ++ list_ascii_of_string b.
Proof. induction a as [|c a IH]; simpl; [reflexivity | f_equal; exact IH]. Qed.

(** A string trims to nothing exactly when it is white space only. *)
Lemma trim_empty (a : string) :
  JS.trim a = "" <-> Blank white_space (list_ascii_of_string a).
Proof.
  unfold JS.trim. rewrite <- trim_bytes_nil.
  destruct (trim_bytes (list_ascii_of_string a)); simpl; split; congruence.
Qed.

(** Trimming twice is trimming once. *)
Lemma trim_idem (a : string) : JS.trim (JS.trim a) = JS.trim a.
Proof.
  unfold JS.trim. rewrite list_ascii_of_string_of_list_ascii, trim_bytes_idem.
  reflexivity.
Qed.

(** X13: the display name is the user id exactly when both name fields
    are missing or consist of white space; otherwise it is the two name
    fields joined by a space and trimmed, which is not empty and has no
    white space at either end; so it is never empty for a user whose id
    is not. *)
Theorem display_name_never_blank (u : Clerk.User) :
  let first := Clerk.firstName u in
  let last := Clerk.lastName u in
  (Provider.blank first /\ Provider.blank last ->
   Provider.display_name u = Clerk.id u) /\
  (~ (Provider.blank first /\ Provider.blank last) ->
   Provider.display_name u
   = JS.trim (JS.or_else first "" ++ " " ++ JS.or_else last "") /\
   Provider.display_name u <> "" /\
   Provider.trimmed (Provider.display_name u)) /\
  (Clerk.id u <> "" -> Provider.display_name u <> "").
Proof.
  simpl. unfold Provider.display_name, Provider.blank, Provider.trimmed.
  set (f := JS.or_else (Clerk.firstName u) "").
  set (l := JS.or_else (Clerk.lastName u) "").
  assert (Hblank : JS.trim (f ++ " " ++ l) = "" <->
                   JS.trim f = "" /\ JS.trim l = "").
  { rewrite !trim_empty, bytes_app. apply Blank_around_space. }
  unfold JS.truthy.
  destruct (String.eqb_spec (JS.trim (f ++ " " ++ l)) "") as [He|Hne]; simpl.
  - split; [reflexivity|]. split; [|auto].
    intros Hnb. exfalso. apply Hnb. apply Hblank. exact He.
  - split.
    + intros Hb. exfalso. apply Hne. apply Hblank. exact Hb.
    + split; [|auto]. intros _. split; [reflexivity|]. split; [exact Hne|].
      apply trim_idem.
Qed.

End TrimFacts.

Section TokenFacts.

Import Token.

(** X9: [streamTokenProvider] returns a token exactly when there is a
    current user and the token generation for that user's id succeeds;
    without a user it throws "User not authenticated" whatever the
    generator would do; every failure is logged last and rethrown with
    the same message; and what it logs does not depend on the token. *)
Theorem streamTokenProvider_fails_closed
    (currentUser : JS.result (option Clerk.User))
    (generateUserToken other : string -> JS.result string) :
  let out := streamTokenProvider currentUser generateUserToken in
  (forall tok, snd out = JS.Ok tok <->
     exists u, currentUser = JS.Ok (Some u) /\
               generateUserToken (Clerk.id u) = JS.Ok tok) /\
  (currentUser = JS.Ok None ->
   snd out = JS.Throw "User not authenticated" /\
   streamTokenProvider currentUser other = out) /\
  (forall m, snd out = JS.Throw m ->
     exists before,
       fst out = before ++ [ConsoleError "Stream Token Provider Error:" m]) /\
  (forall u tok tok',
     currentUser = JS.Ok (Some u) ->
     generateUserToken (Clerk.id u) = JS.Ok tok ->
     other (Clerk.id u) = JS.Ok tok' ->
     fst (streamTokenProvider currentUser other) = fst out).
Proof.
  unfold streamTokenProvider. split; [|split; [|split]].
  - intros tok. destruct currentUser as [[u|]|e]; simpl.
    + destruct (generateUserToken (Clerk.id u)) as [t|e] eqn:Hg; simpl.
      * split.
        -- intros [= ->]. eauto.
        -- intros (u' & [= <-] & Hg'). congruence.
      * split; [discriminate|]. intros (u' & [= <-] & Hg'). congruence.
    + split; [discriminate|]. intros (u' & H & _). discriminate.
    + split; [discriminate|]. intros (u' & H & _). discriminate.
  - intros ->. split; reflexivity.
  - intros m. destruct currentUser as [[u|]|e]; simpl.
    + destruct (generateUserToken (Clerk.id u)) as [t|e]; simpl;
        [discriminate|]. intros [= ->]. eexists [_]. reflexivity.
    + intros [= <-]. eexists [_; _]. reflexivity.
    + intros [= ->]. exists []. reflexivity.
  - intros u tok tok' -> Hg Ho. rewrite Hg, Ho. reflexivity.
Qed.

End TokenFacts.

Section LookupHook.

Import Lookup.

Implicit Types (s : State) (e : nat) (ep : Epoch).

Local Arguments fires : simpl never.
Local Arguments Nat.iter : simpl never.
Local Arguments tick : simpl never.
Local Arguments Nat.div : simpl never.

Lemma hook_refl s : keeps_hook s s.
Proof. repeat split; eauto. Qed.

Lemma hook_trans s1 s2 s3 :
  keeps_hook s1 s2 -> keeps_hook s2 s3 -> keeps_hook s1 s3.
Proof.
  intros (A1 & A2 & A3 & A4 & A5) (B1 & B2 & B3 & B4 & B5).
  repeat split; try congruence.
  intros e ep3 H3. destruct (B5 e ep3 H3) as (ep2 & H2 & ->). eauto.
Qed.

Lemma hook_getCall e s : keeps_hook s (getCall e s).
Proof.
  unfold getCall. destruct (epochs s !! e) as [ep|] eqn:Hep; [|apply hook_refl].
  destruct (client ep); unfold keeps_hook, toasts; simpl;
    rewrite List.filter_app; simpl; rewrite app_nil_r; repeat split; eauto.
  intros e' ep' H.
  apply list_lookup_insert_Some in H as [(<- & <- & _)|(_ & H)]; eauto.
Qed.

Lemma hook_tick e s : keeps_hook s (tick e s).
Proof.
  unfold tick. destruct (epochs s !! e) as [ep|]; [|apply hook_refl].
  destruct (client ep); [apply hook_refl|].
  eapply hook_trans; [|apply hook_getCall].
  unfold keeps_hook, toasts. simpl. rewrite List.filter_app. simpl.
  rewrite app_nil_r. repeat split; eauto.
Qed.

Lemma hook_iter_tick n e s : keeps_hook s (Nat.iter n (tick e) s).
Proof.
  induction n as [|n IH]; [apply hook_refl|].
  rewrite Nat.iter_succ. eapply hook_trans; [exact IH | apply hook_tick].
Qed.

Lemma hook_advance d s : keeps_hook s (advance d s).
Proof.
  unfold advance.
  assert (H : forall l acc, keeps_hook s acc ->
    keeps_hook s
      (fold_left
         (fun acc e =>
            match epochs s !! e with
            | Some ep =>
                match interval ep with
                | Some t0 => Nat.iter (fires t0 (clock s) (clock s + d)) (tick e) acc
                | None => acc
                end
            | None => acc
            end) l acc)).
  { induction l as [|e l IH]; intros acc Hacc; simpl; [exact Hacc|].
    apply IH. destruct (epochs s !! e) as [ep|]; [|exact Hacc].
    destruct (interval ep); [|exact Hacc].
    eapply hook_trans; [exact Hacc | apply hook_iter_tick]. }
  destruct (H (seq 0 (length (epochs s))) s (hook_refl s))
    as (A1 & A2 & A3 & A4 & A5).
  repeat split; simpl; assumption.
Qed.

Lemma lookup_cleanup_mounted e s e' ep' :
  epochs (cleanup e s) !! e' = Some ep' ->
  exists ep, epochs s !! e' = Some ep /\
             (mounted ep' = mounted ep \/ mounted ep' = false) /\
             (e' = e -> mounted ep' = false).
Proof.
  unfold cleanup. destruct (epochs s !! e) as [ep|] eqn:Hep.
  - simpl. intros H.
    apply list_lookup_insert_Some in H as [(<- & <- & _)|(Hne & H)].
    + exists ep. simpl. auto.
    + exists ep'. repeat split; auto. congruence.
  - intros H. exists ep'. repeat split; auto. intros ->. congruence.
Qed.

Lemma lookup_cleanup_view e s :
  active (cleanup e s) = active s /\ call (cleanup e s) = call s /\
  isCallLoading (cleanup e s) = isCallLoading s /\ trace (cleanup e s) = trace s.
Proof. unfold cleanup. destruct (epochs s !! e); auto. Qed.

Lemma lookup_cleanup_active_unmounted s :
  stale_unmounted s ->
  all_unmounted (match active s with
                 | Some e => cleanup e s
                 | None => s
                 end).
Proof.
  intros Hst. destruct (active s) as [a|] eqn:Ha.
  - intros e ep Hep.
    destruct (lookup_cleanup_mounted a s e ep Hep) as (ep0 & H0 & Hm & Hx).
    destruct (decide (e = a)) as [->|Hne]; [auto|].
    destruct Hm as [-> | ->]; [|reflexivity].
    apply (Hst e ep0 H0). congruence.
  - intros e ep Hep. apply (Hst e ep Hep). congruence.
Qed.

Lemma hook_stale s s' : keeps_hook s s' -> stale_unmounted s -> stale_unmounted s'.
Proof.
  intros (Ha & _ & _ & _ & Hk) Hst e ep' Hep' Hact. rewrite Ha in Hact.
  destruct (Hk e ep' Hep') as (ep & Hep & ->). eauto.
Qed.

Lemma lookup_run_effect_unmounted c i s :
  all_unmounted s -> stale_unmounted (run_effect c i s).
Proof.
  intros Hall. unfold run_effect.
  eapply hook_stale; [apply hook_getCall|].
  intros e ep Hep Hact. simpl in *.
  apply lookup_app_Some in Hep as [Hep | [Hge Hep]]; [eauto|].
  apply list_lookup_singleton_Some in Hep as [Hz _].
  exfalso. apply Hact. f_equal. lia.
Qed.

(** What a settlement changes: nothing but the console when the epoch is
    unmounted or absent. *)
Lemma lookup_resume_flags e o s :
  active (resume e o s) = active s /\
  forall e' ep', epochs (resume e o s) !! e' = Some ep' ->
    exists ep, epochs s !! e' = Some ep /\ mounted ep' = mounted ep.
Proof.
  unfold resume. destruct (epochs s !! e) as [ep|] eqn:Hep; [|eauto].
  destruct (fetching ep); simpl; [|eauto].
  assert (Hk : forall e' ep',
    <[e := {| mounted := mounted ep; client := client ep; id := id ep;
              interval := interval ep; fetching := false |}]> (epochs s) !! e'
    = Some ep' ->
    exists ep0, epochs s !! e' = Some ep0 /\ mounted ep' = mounted ep0).
  { intros e' ep' H.
    apply list_lookup_insert_Some in H as [(<- & <- & _)|(_ & H)]; eauto. }
  destruct o; destruct (mounted ep); split; simpl; auto.
Qed.

Lemma lookup_resume_unmounted e o s :
  (forall ep, epochs s !! e = Some ep -> mounted ep = false) ->
  call (resume e o s) = call s /\
  isCallLoading (resume e o s) = isCallLoading s /\
  toasts (resume e o s) = toasts s.
Proof.
  intros Hm. unfold resume. destruct (epochs s !! e) as [ep|] eqn:Hep; [|auto].
  rewrite (Hm ep eq_refl).
  destruct (fetching ep); [|auto].
  destruct o; unfold toasts; simpl; rewrite List.filter_app; simpl;
    rewrite app_nil_r; auto.
Qed.

Lemma lookup_step_unmounted ev s : stale_unmounted s -> stale_unmounted (step ev s).
Proof.
  intros Hst. destruct ev as [c i| |d|e o]; simpl.
  - apply lookup_run_effect_unmounted, lookup_cleanup_active_unmounted, Hst.
  - pose proof (lookup_cleanup_active_unmounted s Hst) as Hall.
    destruct (active s); [|exact Hst].
    intros e ep Hep _. apply (Hall e ep Hep).
  - eapply hook_stale; [apply hook_advance | exact Hst].
  - destruct (lookup_resume_flags e o s) as [Ha Hk].
    intros e' ep' Hep' Hact. rewrite Ha in Hact.
    destruct (Hk e' ep' Hep') as (ep & Hep & ->). eauto.
Qed.

Lemma lookup_run_unmounted evs : stale_unmounted (run evs init).
Proof.
  induction evs as [|ev evs IH] using rev_ind.
  - intros e ep Hep. discriminate.
  - rewrite lookup_run_snoc. apply lookup_step_unmounted, IH.
Qed.

Lemma lookup_resume_all_unmounted e o s :
  all_unmounted s ->
  all_unmounted (resume e o s) /\ call (resume e o s) = call s /\
  isCallLoading (resume e o s) = isCallLoading s /\
  toasts (resume e o s) = toasts s.
Proof.
  intros Hall. split.
  - intros e' ep' Hep'. destruct (lookup_resume_flags e o s) as [_ Hk].
    destruct (Hk e' ep' Hep') as (ep & Hep & ->). eauto.
  - apply lookup_resume_unmounted. intros ep Hep. eauto.
Qed.

(** X14: once the lookup hook has been unmounted, however its fetches
    settle afterwards, neither [call] nor [isCallLoading] is set and no
    toast is shown. *)
Theorem lookup_ignores_results_after_unmount (evs : list Event)
    (late : list (nat * JS.Settled unit)) :
  let s1 := run (evs ++ [Unmount]) init in
  let s2 := run (List.map settle late) s1 in
  call s2 = call s1 /\ isCallLoading s2 = isCallLoading s1 /\
  toasts s2 = toasts s1.
Proof.
  intros s1 s2.
  assert (Hall : all_unmounted s1).
  { subst s1. rewrite lookup_run_snoc. simpl.
    pose proof (lookup_cleanup_active_unmounted _ (lookup_run_unmounted evs)) as Hall.
    destruct (active (run evs init)); [|exact Hall].
    intros e ep Hep. apply (Hall e ep Hep). }
  subst s2. revert Hall. generalize s1. clear s1.
  induction late as [|[e o] late IH]; intros s Hall; simpl; [auto|].
  destruct (lookup_resume_all_unmounted e o s Hall) as (Hall' & H1 & H2 & H3).
  destruct (IH _ Hall') as (G1 & G2 & G3).
  repeat split; congruence.
Qed.

(** X15: in every reachable state of the lookup hook, the settlement of
    a fetch that belongs to an effect other than the active one (an
    earlier id or client) changes neither [call] nor [isCallLoading] and
    shows no toast. *)
Theorem lookup_drops_stale_results (evs : list Event) (e : nat)
    (o : JS.Settled unit) :
  let s := run evs init in
  active s <> Some e ->
  call (step (Settle e o) s) = call s /\
  isCallLoading (step (Settle e o) s) = isCallLoading s /\
  toasts (step (Settle e o) s) = toasts s.
Proof.
  intros s Hact. simpl. apply lookup_resume_unmounted.
  intros ep Hep. exact (lookup_run_unmounted evs e ep Hep Hact).
Qed.

Lemma lookup_step_loading ev s :
  isCallLoading s = false -> isCallLoading (step ev s) = false.
Proof.
  intros Hl. destruct ev as [c i| |d|e o]; unfold step.
  - unfold run_effect.
    match goal with
    | |- isCallLoading (getCall ?n ?t) = false =>
        destruct (hook_getCall n t) as (_ & _ & -> & _)
    end.
    simpl. destruct (active s) as [a|]; [|exact Hl].
    destruct (lookup_cleanup_view a s) as (_ & _ & -> & _). exact Hl.
  - destruct (active s) as [a|]; [|exact Hl]. simpl.
    destruct (lookup_cleanup_view a s) as (_ & _ & -> & _). exact Hl.
  - destruct (hook_advance d s) as (_ & _ & -> & _). exact Hl.
  - unfold resume. destruct (epochs s !! e) as [ep|]; [|exact Hl].
    destruct (fetching ep); [|exact Hl].
    destruct o, (mounted ep); simpl; auto.
Qed.

(** X16: [isCallLoading] is never set back to true: once a fetch has
    settled, the meeting page never shows its loading state again for a
    loaded identity, whatever follows (a new id, a new client, time,
    later settlements). *)
Theorem isCallLoading_never_returns (evs later : list Event) (b : bool) :
  isCallLoading (run evs init) = false ->
  isCallLoading (run (evs ++ later) init) = false /\
  MeetingPage true (run (evs ++ later) init) b <> LoadingMeeting.
Proof.
  intros Hl.
  assert (H : isCallLoading (run (evs ++ later) init) = false).
  { induction later as [|ev later IH] using rev_ind.
    - rewrite app_nil_r. exact Hl.
    - rewrite app_assoc, lookup_run_snoc. apply lookup_step_loading. exact IH. }
  split; [exact H|]. unfold MeetingPage. rewrite H. simpl.
  destruct (call (run (evs ++ later) init)); discriminate.
Qed.

(** X17: when the fetch of the session resolves, the meeting page of a
    loaded identity shows the call of that id in the "default" namespace,
    with no toast and after exactly one fetch; while the identity is not
    loaded it keeps showing the loading state. *)
Theorem meeting_found_shows_call (c : nat) (callId : string) (b : bool) :
  let found := run [Render (Some c) callId; Settle 0 (JS.Resolved tt)] init in
  MeetingPage true found b = InCall (Stream.call "default" callId) b /\
  MeetingPage false found b = LoadingMeeting /\
  toasts found = [] /\
  fetches found = 1.
Proof. repeat split. Qed.

(** X18: without a client the hook never fetches and never leaves the
    loading state: however long the consumer waits, the meeting page
    shows "Loading meeting", there is no toast and no call. *)
Theorem lookup_waits_forever_without_client (i : string) (d : nat)
    (isLoaded b : bool) :
  let waiting := run [Render None i; Advance d] init in
  MeetingPage isLoaded waiting b = LoadingMeeting /\
  fetches waiting = 0 /\ toasts waiting = [] /\ call waiting = None.
Proof.
  intros waiting. subst waiting.
  rewrite waiting_state. unfold MeetingPage, fetches, toasts. simpl.
  rewrite orb_true_r.
  pose proof (fetches_retry_log (d / period)
                [ConsoleLog "useGetcallById: No client available, waiting..."]) as Hf.
  simpl in Hf.
  repeat split.
  - rewrite Hf. reflexivity.
  - clear Hf. induction (d / period) as [|n IH]; [reflexivity|].
    simpl. rewrite List.filter_app. simpl. rewrite app_nil_r. exact IH.
Qed.

End LookupHook.

Section HomeFacts.

Import Home.

Implicit Types (l : list Interview) (x y : Interview).

Let earlier x y := (startTime x <= startTime y)%Z.

Lemma insert_by_start_perm x l : Permutation (insert_by_start x l) (x :: l).
Proof.
  induction l as [|y l IH]; simpl; [reflexivity|].
  destruct (Z.leb (startTime x) (startTime y)); [reflexivity|].
  rewrite IH. apply perm_swap.
Qed.

Lemma sort_by_start_perm l : Permutation (sort_by_start l) l.
Proof.
  induction l as [|x l IH]; simpl; [reflexivity|].
  rewrite insert_by_start_perm, IH. reflexivity.
Qed.

Lemma insert_by_start_sorted x l :
  StronglySorted earlier l -> StronglySorted earlier (insert_by_start x l).
Proof.
  induction 1 as [|y l Hs IH Hy]; simpl; [repeat constructor|].
  destruct (Z.leb_spec (startTime x) (startTime y)) as [Hle|Hgt].
  - constructor; [constructor; assumption|].
    constructor; [exact Hle|].
    eapply List.Forall_impl; [|exact Hy]. unfold earlier. intros z Hz. lia.
  - constructor; [exact IH|].
    apply List.Forall_forall. intros z Hz.
    apply (Permutation_in _ (insert_by_start_perm x l)) in Hz as [<-|Hz].
    + unfold earlier. lia.
    + exact (proj1 (List.Forall_forall _ _) Hy z Hz).
Qed.

Lemma sort_by_start_sorted l : StronglySorted earlier (sort_by_start l).
Proof.
  induction l as [|x l IH]; simpl; [constructor|].
  apply insert_by_start_sorted. exact IH.
Qed.

Lemma sorted_by_start l : StronglySorted earlier l -> by_start l.
Proof.
  induction 1 as [|x l Hs IH Hx]; intros i j a b Hij Ha Hb; [discriminate|].
  destruct i as [|i], j as [|j]; simpl in *.
  - injection Ha as <-. injection Hb as <-. lia.
  - injection Ha as <-.
    apply (proj1 (List.Forall_forall _ _) Hx b).
    apply list_elem_of_In. eapply list_elem_of_lookup_2; eauto.
  - lia.
  - apply (IH i j a b); [lia | assumption | assumption].
Qed.

Lemma sorted_app_le (l1 l2 : list Interview) :
  StronglySorted earlier (l1 ++ l2) ->
  forall x y, In x l1 -> In y l2 -> (startTime x <= startTime y)%Z.
Proof.
  induction l1 as [|z l1 IH]; simpl; intros Hs x y Hx Hy; [contradiction|].
  inversion Hs as [|? ? Hs' Hz]; subst. destruct Hx as [<-|Hx].
  - apply (proj1 (List.Forall_forall _ _) Hz y). apply in_app_iff. auto.
  - eapply IH; eauto.
Qed.

Lemma in_take (n : nat) l x : In x (firstn n l) -> In x l.
Proof.
  revert n. induction l as [|y l IH]; intros [|n]; simpl; try contradiction.
  intros [->|H]; eauto.
Qed.

Lemma sorted_take (n : nat) l :
  StronglySorted earlier l -> StronglySorted earlier (firstn n l).
Proof.
  intros Hs. revert n. induction Hs as [|x l Hs IH Hx]; intros [|n]; simpl;
    try constructor; auto.
  apply List.Forall_forall. intros z Hz.
  apply (proj1 (List.Forall_forall _ _) Hx z). eapply in_take; eauto.
Qed.

(** The sort keeps the order of the interviews that start at the same
    time. *)
Lemma insert_by_start_stable (t : Z) x l :
  List.filter (fun y => Z.eqb (startTime y) t) (insert_by_start x l)
  = List.filter (fun y => Z.eqb (startTime y) t) (x :: l).
Proof.
  induction l as [|y l IH]; simpl; [reflexivity|].
  destruct (Z.leb_spec (startTime x) (startTime y)) as [Hle|Hgt]; [reflexivity|].
  simpl. rewrite IH. simpl.
  destruct (Z.eqb_spec (startTime y) t) as [Hy|Hy];
    destruct (Z.eqb_spec (startTime x) t) as [Hx|Hx]; try reflexivity.
  lia.
Qed.

Lemma sort_by_start_stable (t : Z) l :
  List.filter (fun y => Z.eqb (startTime y) t) (sort_by_start l)
  = List.filter (fun y => Z.eqb (startTime y) t) l.
Proof.
  induction l as [|x l IH]; simpl; [reflexivity|].
  rewrite insert_by_start_stable. simpl. rewrite IH. reflexivity.
Qed.

(** An interview is upcoming when its start is a valid date after the
    current time. *)
Lemma is_upcoming_spec (now : Z) x :
  is_upcoming now x
  = Z.leb (Z.abs (startTime x)) 8640000000000000 && Z.ltb now (startTime x).
Proof.
  unfold is_upcoming, time_value, max_time.
  destruct (Z.leb (Z.abs (startTime x)) 8640000000000000); reflexivity.
Qed.

(** X19: the upcoming interviews shown are at most three, in
    non-decreasing order of start time, all taken from the query result,
    all with a start that is a valid date (within 8.64e15 milliseconds of
    the epoch) after the current time; together with the ones left out
    they are the interviews of the query result with such a start, no
    interview left out starts before one shown, and some are left out
    only when three are shown; interviews that start at the same time
    keep the order of the query result. *)
Theorem upcomingInterviews_earliest_three (now : Z) l :
  let pending :=
    List.filter (fun x => Z.leb (Z.abs (startTime x)) 8640000000000000
                          && Z.ltb now (startTime x)) l in
  let shown := upcomingInterviews now l in
  length shown <= 3 /\
  by_start shown /\
  (forall x, In x shown ->
     In x l /\ (Z.abs (startTime x) <= 8640000000000000)%Z /\
     (now < startTime x)%Z) /\
  (exists rest,
     Permutation (shown ++ rest) pending /\
     (forall x y, In x shown -> In y rest -> (startTime x <= startTime y)%Z) /\
     (rest <> [] -> length shown = 3)) /\
  (forall t, List.filter (fun y => Z.eqb (startTime y) t) (sort_by_start pending)
             = List.filter (fun y => Z.eqb (startTime y) t) pending).
Proof.
  intros pending shown. unfold shown, upcomingInterviews, slice0.
  rewrite (List.filter_ext _ _ (is_upcoming_spec now) l). fold pending.
  pose proof (sort_by_start_sorted pending) as Hs.
  pose proof (sort_by_start_perm pending) as Hp.
  split; [apply firstn_le_length|]. split; [|split; [|split]].
  - apply sorted_by_start, sorted_take, Hs.
  - intros x Hx. apply in_take in Hx.
    apply (Permutation_in _ Hp) in Hx. unfold pending in Hx.
    apply filter_In in Hx as [Hin Hup]. split; [exact Hin|].
    apply andb_prop in Hup as [H1 H2]. lia.
  - exists (skipn 3 (sort_by_start pending)). split; [|split].
    + rewrite firstn_skipn. exact Hp.
    + apply sorted_app_le. rewrite firstn_skipn. exact Hs.
    + intros Hne. apply firstn_length_le.
      destruct (le_lt_dec 3 (length (sort_by_start pending))) as [|Hlt]; [assumption|].
      exfalso. apply Hne. apply skipn_all2. lia.
  - intros t. apply sort_by_start_stable.
Qed.

(** X20: the "upcoming" figure is the number of interviews whose start
    is a valid date (within 8.64e15 milliseconds of the epoch) after the
    current time, capped at three; the completed interviews never
    outnumber the interviews, and equal them exactly when every
    interview has an end time that is not zero. *)
Theorem home_statistics (now : Z) l :
  upcomingCount now l
  = Nat.min 3 (length (List.filter
                         (fun x => Z.leb (Z.abs (startTime x)) 8640000000000000
                                   && Z.ltb now (startTime x)) l)) /\
  completedInterviews l <= totalInterviews l /\
  (completedInterviews l = totalInterviews l <->
   forall x, In x l -> exists t, endTime x = Some t /\ t <> 0%Z).
Proof.
  unfold upcomingCount, upcomingInterviews, slice0, completedInterviews,
    totalInterviews.
  split; [|split].
  - rewrite length_firstn.
    rewrite (Permutation_length (sort_by_start_perm _)).
    rewrite (List.filter_ext _ _ (is_upcoming_spec now) l). reflexivity.
  - apply List.filter_length_le.
  - induction l as [|x l IH]; simpl; [split; [intros _ y [] | reflexivity]|].
    pose proof (List.filter_length_le has_ended l) as Hle.
    unfold has_ended at 1. destruct (endTime x) as [t|] eqn:Ht; simpl.
    + destruct (Z.eqb_spec t 0) as [->|Hne]; simpl.
      * split; [lia|]. intros H.
        destruct (H x (or_introl eq_refl)) as (t' & Hc & Hn).
        rewrite Ht in Hc. injection Hc as <-. contradiction.
      * split.
        -- intros H. assert (Hl : length (List.filter has_ended l) = length l) by lia.
           intros y [<-|Hy]; [eauto | apply IH; auto].
        -- intros H. f_equal. apply IH. intros y Hy. apply H. auto.
    + split; [lia|]. intros H. destruct (H x (or_introl eq_refl)) as (t' & Hc & _).
      rewrite Ht in Hc. discriminate.
Qed.

End HomeFacts.

Section ModalClosing.

Import Modal.

(** X21: whatever the mode, the text and the client, [handleStart] ends
    by clearing the input and closing the modal, after at most one
    action; without a client that action can only be the "not
    initialized" toast and nothing navigates; in start mode nothing
    navigates before the request settles; in join mode no call is
    created, and with a client no error is reported. *)
Theorem handleStart_always_closes (isJoinMeeting : bool) (text : string)
    (client : option nat) (uuid now : string) :
  exists before,
    handleStart isJoinMeeting text client uuid now
    = before ++ [SetMeetingURL ""; OnClose] /\
    length before <= 1 /\
    (client = None ->
     List.filter navigates before = [] /\
     forall a, In (Action a) before -> a = Actions.ToastError
       "Video service not initialized. Please try again in a moment.") /\
    (isJoinMeeting = false -> List.filter navigates before = []) /\
    (isJoinMeeting = true -> forall c call t d,
       ~ In (Action (Actions.GetOrCreate call t d)) before /\
       (client = Some c -> List.filter reports_error before = [])).
Proof.
  unfold handleStart. eexists. split; [reflexivity|].
  assert (Hin : forall (a b : Actions.Effect), In (Action a) [Action b] -> a = b).
  { intros a b [H|[]]. congruence. }
  destruct isJoinMeeting.
  - destruct (join_argument text) as [i|]; destruct client as [c|]; simpl.
    + split; [lia|]. split; [discriminate|]. split; [discriminate|].
      intros _ c' call t d. split; [|reflexivity].
      intros H. apply Hin in H. discriminate.
    + split; [lia|]. split; [|split; [discriminate|]].
      * intros _. split; [reflexivity|]. intros a H. apply Hin in H. exact H.
      * intros _ c' call t d. split; [|discriminate].
        intros H. apply Hin in H. discriminate.
    + split; [lia|]. split; [discriminate|]. split; [discriminate|].
      intros _ c' call t d. split; [intros [] | reflexivity].
    + split; [lia|]. split; [|split; [discriminate|]].
      * intros _. split; [reflexivity|]. intros a [].
      * intros _ c' call t d. split; [intros [] | discriminate].
  - destruct client as [c|]; simpl.
    + split; [lia|]. split; [discriminate|]. split; [reflexivity | discriminate].
    + split; [lia|]. split; [|split; [reflexivity | discriminate]].
      intros _. split; [reflexivity|]. intros a H. apply Hin in H. exact H.
Qed.

End ModalClosing.

(* ===================================================================== *)
(** * The further properties on sample inputs *)
(* ===================================================================== *)

(** X1 on Ada's record when Bob signs in. *)
Lemma syncUser_leaves_other_users_witness :
  Directory.getUser "u1"
    (fst (Directory.syncUser 1700000090000 Samples.bob_args Samples.ada_only))
  = Directory.getUser "u1" Samples.ada_only.
Proof.
  apply (syncUser_leaves_other_users 1700000090000 Samples.bob_args
           Samples.ada_only "u1").
  - apply syncUser_ids_ok. exact empty_ids_ok.
  - discriminate.
Defined.

(** X6 while the role query is pending. *)
Lemma dashboard_button_visibility_witness :
  Gates.dashboard_button (Some Samples.ada) (fun _ => Roles.Pending)
  = JS.Ok Gates.NoButton.
Proof.
  apply (proj2 (proj1 (dashboard_button_visibility (fun _ => Roles.Pending)
                         (Some Samples.ada)))).
  left. reflexivity.
Defined.

(** X7 for a visitor without a record. *)
Lemma schedule_page_gate_witness :
  Gates.schedule_page None (fun _ => Roles.Null) = JS.Ok (Gates.RouterPush "/").
Proof.
  apply (proj2 (proj1 (proj2 (proj2 (schedule_page_gate (fun _ => Roles.Null)
                                       None))))).
  left. reflexivity.
Defined.

(** X9 on a request without a current user. *)
Lemma streamTokenProvider_fails_closed_witness :
  snd (Token.streamTokenProvider (JS.Ok None) (fun _ => JS.Ok "tok"))
  = JS.Throw "User not authenticated".
Proof.
  apply (proj1 (proj1 (proj2 (streamTokenProvider_fails_closed (JS.Ok None)
                                (fun _ => JS.Ok "tok") (fun _ => JS.Ok "tok")))
                  eq_refl)).
Defined.

(** X11 on the handle of a connected provider. *)
Lemma handles_bound_to_requested_identity_witness :
  In (Provider.TokenRequest "u1") (Provider.trace Samples.ada_connected) /\
  In (Provider.SetStreamVideoClient 0) (Provider.trace Samples.ada_connected).
Proof.
  destruct (handles_bound_to_requested_identity "pk"
              [Provider.Render true (Some Samples.ada) Samples.shown;
               Provider.Settle 0 (Provider.TokenResolved "tok" None)])
    as [Hc Hp].
  split.
  - apply (proj1 (Hc 0 (Provider.new_client "pk" Samples.ada "tok") eq_refl)).
  - apply (proj2 (Hp 0 eq_refl)).
Defined.

(** X12 when Bob signs in on a provider connected for Ada. *)
Lemma teardown_keeps_published_handle_witness :
  let s' := Provider.step "pk"
              (Provider.Render true (Some Samples.bob) Samples.shown)
              Samples.ada_connected in
  Provider.streamVideoClient s' = Some 0 /\ ~ Provider.live s' 0 /\
  Provider.render true (Some Samples.bob) s' = Provider.StreamVideo 0.
Proof.
  destruct (teardown_keeps_published_handle "pk" 0
              {| Provider.mounted := true; Provider.client := Some 0;
                 Provider.awaiting := None |}
              0 Samples.shown true (Some Samples.bob) Samples.ada_connected
              eq_refl eq_refl eq_refl eq_refl eq_refl)
    as (H1 & H2 & _ & H4).
  split; [exact H1|]. split; [exact H2 | apply H4].
Defined.

(** X13 on a user with both names and on one whose only name is a
    no-break space. *)
Lemma display_name_never_blank_witness :
  Provider.display_name Samples.ada = "Ada Byron" /\
  Provider.display_name
    {| Clerk.id := "u9"; Clerk.firstName := Some Samples.nbsp;
       Clerk.lastName := None;
       Clerk.imageUrl := ""; Clerk.emailAddresses := [] |} = "u9".
Proof.
  split.
  - apply (proj1 (proj2 (display_name_never_blank Samples.ada))).
    intros [H _]. discriminate H.
  - apply (proj1 (display_name_never_blank
                    {| Clerk.id := "u9"; Clerk.firstName := Some Samples.nbsp;
                       Clerk.lastName := None; Clerk.imageUrl := "";
                       Clerk.emailAddresses := [] |})).
    split; reflexivity.
Defined.

(** X15 when the fetch of a first id resolves after the id changed. *)
Lemma lookup_drops_stale_results_witness :
  Lookup.call
    (Lookup.run [Lookup.Render (Some 0) "first"; Lookup.Render (Some 0) "second";
                 Lookup.Settle 0 (JS.Resolved tt)] Lookup.init)
  = None.
Proof.
  apply (proj1 (lookup_drops_stale_results
                  [Lookup.Render (Some 0) "first"; Lookup.Render (Some 0) "second"]
                  0 (JS.Resolved tt) ltac:(discriminate))).
Defined.

(** X16 when a second id is opened after the first was not found. *)
Lemma isCallLoading_never_returns_witness :
  Lookup.MeetingPage true
    (Lookup.run ([Lookup.Render (Some 0) "first";
                  Lookup.Settle 0 (JS.Rejected (JS.ErrorObj "not found"))]
                 ++ [Lookup.Render (Some 0) "second"]) Lookup.init) false
  <> Lookup.LoadingMeeting.
Proof.
  apply (proj2 (isCallLoading_never_returns
                  [Lookup.Render (Some 0) "first";
                   Lookup.Settle 0 (JS.Rejected (JS.ErrorObj "not found"))]
                  [Lookup.Render (Some 0) "second"] false eq_refl)).
Defined.

(** X19 on the sample agenda at the time 1000: the three earliest of the
    five upcoming interviews, the two of equal start in query order. *)
Lemma upcomingInterviews_earliest_three_witness :
  Home.upcomingInterviews 1000 Samples.agenda
  = [Samples.interview 4 1100 None; Samples.interview 2 1200 None;
     Samples.interview 3 1200 (Some 0%Z)] /\
  (1000 < Home.startTime (Samples.interview 4 1100 None))%Z.
Proof.
  split; [reflexivity|].
  apply (proj2 (proj2 (proj1 (proj2 (proj2 (upcomingInterviews_earliest_three 1000
                                Samples.agenda)))
           (Samples.interview 4 1100 None) (or_introl eq_refl)))).
Defined.

(** X20 on a list whose interviews have all ended. *)
Lemma home_statistics_witness :
  Home.completedInterviews [Samples.interview 1 900 (Some 950%Z)]
  = Home.totalInterviews [Samples.interview 1 900 (Some 950%Z)].
Proof.
  apply (proj2 (proj2 (proj2 (home_statistics 1000
                                [Samples.interview 1 900 (Some 950%Z)])))).
  intros x [<-|[]]. exists 950%Z. split; [reflexivity | discriminate].
Defined.

(** X21 on a join without a client. *)
Lemma handleStart_always_closes_witness :
  exists before,
    Modal.handleStart true "https://app/meetings/abc-123" None "u" "t"
    = before ++ [Modal.SetMeetingURL ""; Modal.OnClose] /\
    List.filter Modal.navigates before = [].
Proof.
  destruct (handleStart_always_closes true "https://app/meetings/abc-123" None
              "u" "t") as (before & Heq & _ & Hnone & _).
  exists before. split; [exact Heq|]. apply (proj1 (Hnone eq_refl)).
Defined.

(** The figures of the home page on the sample agenda. *)
Example home_statistics_agenda :
  Home.upcomingCount 1000 Samples.agenda = 3 /\
  Home.totalInterviews Samples.agenda = 7 /\
  Home.completedInterviews Samples.agenda = 1 /\
  Home.is_upcoming 1000 (Samples.interview 6 8640000000000001 None) = false /\
  Home.is_upcoming 1000 (Samples.interview 6 8640000000000000 None) = true.
Proof. repeat split. Qed.
